(** * Netstore file server: storage ledger, catalog, search pagination,
      upload admission and transfer loops of [server.cpp]

    The development embeds the request handlers of [server.cpp] as Rocq
    functions over an explicit server state, an explicit file system and a
    log of the datagrams handed to the [connection.h] helpers.  Forked
    children are values: the handler returns the job it spawned and the
    job is run separately on its own copy of the state. *)

From Stdlib Require Import ZArith Lia Bool Ascii String.
From Stdlib.Strings Require Import Byte.
From stdpp Require Import base option list gmap strings fin_maps.

Local Open Scope Z_scope.

(** ** Machine integers *)

(** [uint64_t] and [std::size_t] are 64-bit unsigned: arithmetic wraps. *)
Definition wrap64 (z : Z) : Z := z mod 2 ^ 64.

(** Values a [uint64_t] can hold. *)
Definition u64 (z : Z) : Prop := 0 <= z < 2 ^ 64.

(** Conversion [uint64_t -> ssize_t] (two's complement reinterpretation),
    as in [ssize_t remaining_file_size = request.param]. *)
Definition to_ssize (z : Z) : Z :=
  if wrap64 z <? 2 ^ 63 then wrap64 z else wrap64 z - 2 ^ 64.

(** Length of a [std::string] as a [size_t]. *)
Definition str_size (s : string) : Z := Z.of_nat (String.length s).

(** ** Strings and paths *)

Definition NUL : ascii := Ascii.zero.
Definition slash : ascii := "/"%char.
Definition newline : string := String (ascii_of_nat 10) EmptyString.

(** [s.find(c) != std::string::npos] *)
Fixpoint contains_char (c : ascii) (s : string) : bool :=
  match s with
  | EmptyString => false
  | String a r => if Ascii.eqb a c then true else contains_char c r
  end.

(** [name.find(pattern) != std::string::npos]; the empty pattern is found in
    every string, the empty one included. *)
Definition contains (pattern name : string) : bool :=
  match String.index 0 pattern name with
  | Some _ => true
  | None => false
  end.

(** An [fs::path] is kept as its string.  [filename] is the last component:
    what follows the last separator, or the whole string when there is
    none.  (Boost answers "." for a path that ends in a separator and
    treats a leading double separator as a root name; no path of the
    catalog has either form when the shared folder is an ordinary
    directory name.) *)
Fixpoint filename (p : string) : string :=
  match p with
  | EmptyString => EmptyString
  | String a r =>
      if contains_char slash r then filename r
      else if Ascii.eqb a slash then r else p
  end.

(** ** Records of [server.cpp] *)

Record server_options := {
  MCAST_ADDR : string;
  CMD_PORT : Z;
  MAX_SPACE : Z;
  SHRD_FLDR : string;
  TIMEOUT : Z
}.

Record server_state := {
  available_space : Z;
  negative_space : Z;
  socket : Z;
  ip_mreq : Z * Z;
  files : list string;
  open_files : gset string
}.

Definition set_available_space (v : Z) (st : server_state) : server_state :=
  {| available_space := v; negative_space := negative_space st;
     socket := socket st; ip_mreq := ip_mreq st; files := files st;
     open_files := open_files st |}.

Definition set_negative_space (v : Z) (st : server_state) : server_state :=
  {| available_space := available_space st; negative_space := v;
     socket := socket st; ip_mreq := ip_mreq st; files := files st;
     open_files := open_files st |}.

Definition set_files (v : list string) (st : server_state) : server_state :=
  {| available_space := available_space st;
     negative_space := negative_space st;
     socket := socket st; ip_mreq := ip_mreq st; files := v;
     open_files := open_files st |}.

Definition set_open_files (v : gset string) (st : server_state) : server_state :=
  {| available_space := available_space st;
     negative_space := negative_space st;
     socket := socket st; ip_mreq := ip_mreq st; files := files st;
     open_files := v |}.

(** [server_state current_server_state{}] *)
Definition current_server_state : server_state :=
  {| available_space := 0; negative_space := 0; socket := 0;
     ip_mreq := (0, 0); files := []; open_files := ∅ |}.

(** ** The file system *)

(** A regular file: the inode it lives in and its bytes.  The inode number
    tells a file from a later file created under the same name, which is
    what a descriptor opened before an [unlink] keeps writing to. *)
Record file := { ino : nat; content : list byte }.

Record filesystem := { disk : gmap string file; next_ino : nat }.

(** [file_size(path)]: Boost throws when there is no such regular file. *)
Definition file_size (fs : filesystem) (path : string) : option Z :=
  match disk fs !! path with
  | Some f => Some (wrap64 (Z.of_nat (length (content f))))
  | None => None
  end.

(** [fs::remove(path)] and [unlink(path)]: the name goes away (no error when
    it is not there). *)
Definition unlink (path : string) (fs : filesystem) : filesystem :=
  {| disk := delete path (disk fs); next_ino := next_ino fs |}.

(** [open(path, O_WRONLY | O_CREAT, ...)]: an existing file is opened as it
    is (no truncation), a missing one is created empty.  The result is the
    inode the descriptor refers to. *)
Definition open_create (path : string) (fs : filesystem) : filesystem * nat :=
  match disk fs !! path with
  | Some f => (fs, ino f)
  | None =>
      ({| disk := <[path := {| ino := next_ino fs; content := [] |}]> (disk fs);
          next_ino := S (next_ino fs) |}, next_ino fs)
  end.

(** Bytes of a file after writing [bytes] at offset [off] (a gap is filled
    with zero bytes). *)
Definition pwrite (off : nat) (bytes old : list byte) : list byte :=
  take off (old ++ replicate (off - length old) x00) ++ bytes
    ++ drop (off + length bytes) old.

(** [write(fd, ...)] through a descriptor of inode [i] opened as [path]: the
    bytes land in the file of that name only while it is still that inode. *)
Definition write_at (path : string) (i off : nat) (bytes : list byte)
    (fs : filesystem) : filesystem :=
  match disk fs !! path with
  | Some f =>
      if decide (ino f = i) then
        {| disk := <[path := {| ino := i; content := pwrite off bytes (content f) |}]> (disk fs);
           next_ino := next_ino fs |}
      else fs
  | None => fs
  end.

(** ** What [connection.h] provides

    The header [connection.h] is a file of its own.  Its constants and the
    decoding of a received buffer into a command record are taken as
    parameters; what its helpers do with a datagram is kept as a log of
    the calls made. *)

Record SIMPL_CMD := { cmd : string; cmd_seq : Z; data : string }.

Record CMPLX_CMD := {
  cmplx_cmd : string; cmplx_cmd_seq : Z; param : Z; cmplx_data : string
}.

Class connection_h := {
  BSIZE : Z;
  MAX_SIMPL_DATA_LEN : Z;
  SIMPL_CMD_min_size : Z;
  CMPLX_CMD_min_size : Z;
  (** [SIMPL_CMD request(buffer, rcv_len)] *)
  make_SIMPL_CMD : list byte -> Z -> SIMPL_CMD;
  (** [CMPLX_CMD complex_request(buffer, rcv_len)] *)
  make_CMPLX_CMD : list byte -> Z -> CMPLX_CMD
}.

(** The field [param] is a [uint64_t]: whatever the decoder computes is
    kept modulo [2^64]. *)
Definition with_uint64_param (request : CMPLX_CMD) : CMPLX_CMD :=
  {| cmplx_cmd := cmplx_cmd request; cmplx_cmd_seq := cmplx_cmd_seq request;
     param := wrap64 (param request); cmplx_data := cmplx_data request |}.

(** [struct sockaddr_in]: address and port. *)
Definition sockaddr_in : Type := Z * Z.

(** Modelled from the spec: the helpers [send_simple_message],
    [send_complex_message] and [error_message] of [connection.h] each hand
    one datagram to the client named ("reply", "error reply to the
    sender").  A value of [message] is one such call with its arguments;
    handlers return the calls in the order made. *)
Inductive message :=
  | send_simple_message (sock : Z) (client : sockaddr_in)
      (command payload : string) (seq : Z)
  | send_complex_message (sock : Z) (client : sockaddr_in)
      (command payload : string) (seq number : Z)
  | error_message (client : sockaddr_in) (text : string).

(** Modelled from the spec: [message_too_short<T>] of [connection.h], "a
    datagram shorter than the minimum valid record size for its variant is
    silently dropped (no reply)". *)
Definition message_too_short (min_size rcv_len : Z) : bool := rcv_len <? min_size.

(** Stands for the text of the reply to a wrong use of a command. *)
Definition usage_error : string := "Invalid data.".

(** Modelled from the spec: [check_data_empty] of [connection.h], "discover:
    payload must be empty"; "invalid command usage (e.g., non-empty payload
    on discover): answered with an explicit error reply".  The text of the
    reply is not fixed by the spec; [usage_error] stands for it. *)
Definition check_data_empty (request : SIMPL_CMD) (client : sockaddr_in)
    : bool * list message :=
  if String.eqb (data request) "" then (true, [])
  else (false, [error_message client usage_error]).

(** Modelled from the spec: [check_data_not_empty] of [connection.h],
    "remove: payload must be non-empty (target filename)", an invalid usage
    being answered with an error reply. *)
Definition check_data_not_empty (request : SIMPL_CMD) (client : sockaddr_in)
    : bool * list message :=
  if String.eqb (data request) "" then (false, [error_message client usage_error])
  else (true, []).

(** ** Forked children and what a handler returns *)

(** What [fork()] gave birth to: the child runs [send_file] or
    [receive_file] on its own copy of the state and never returns to the
    loop. *)
Inductive job :=
  | send_file_job (st : server_state) (client : sockaddr_in)
      (request : SIMPL_CMD) (path : string)
  | receive_file_job (st : server_state) (client : sockaddr_in)
      (request : CMPLX_CMD).

(** Result of one handler call in the serving process. *)
Record reply := {
  r_state : server_state;
  r_fs : filesystem;
  r_sent : list message;
  r_child : option job;
  r_thrown : option string
}.

Definition returns (st : server_state) (fs : filesystem) (sent : list message)
    : reply :=
  {| r_state := st; r_fs := fs; r_sent := sent; r_child := None;
     r_thrown := None |}.

Definition throws (st : server_state) (fs : filesystem) (sent : list message)
    (what : string) : reply :=
  {| r_state := st; r_fs := fs; r_sent := sent; r_child := None;
     r_thrown := Some what |}.

Definition spawns (st : server_state) (fs : filesystem) (sent : list message)
    (child : job) : reply :=
  {| r_state := st; r_fs := fs; r_sent := sent; r_child := Some child;
     r_thrown := None |}.

(** ** [index_files] *)

(** One entry met by the [directory_iterator]. *)
Record dir_entry := { e_path : string; e_regular : bool; e_size : Z }.

(** Body of the [for] loop of [index_files]. *)
Definition index_entry (st : server_state) (e : dir_entry) : server_state :=
  if e_regular e then
    let current_file_size := wrap64 (e_size e) in
    let st := set_files (files st ++ [e_path e]) st in
    if available_space st <? current_file_size then
      let current_file_size := wrap64 (current_file_size - available_space st) in
      let st := set_available_space 0 st in
      set_negative_space (wrap64 (negative_space st + current_file_size)) st
    else
      set_available_space (wrap64 (available_space st - current_file_size)) st
  else st.

(** [index_files]: [dir] is the listing of [SHRD_FLDR], or [None] when that
    is not an existing directory. *)
Definition index_files (options : server_options) (st : server_state)
    (dir : option (list dir_entry)) : string + server_state :=
  let st := set_available_space (wrap64 (MAX_SPACE options)) st in
  match dir with
  | Some entries => inr (foldl index_entry st entries)
  | None => inl "wrong directory"%string
  end.

(** ** [command_equal] *)

(** The [for] loop of [command_equal]: every character from position [i]
    on is NUL. *)
Fixpoint nul_from (i : nat) (s : string) : bool :=
  match s with
  | EmptyString => true
  | String a r =>
      match i with
      | O => Ascii.eqb a NUL && nul_from O r
      | S i' => nul_from i' r
      end
  end.

Definition command_equal (request : SIMPL_CMD) (command : string) : bool :=
  if nul_from (String.length command) (cmd request) then
    String.eqb (substring 0 (String.length command) (cmd request)) command
  else false.

(** ** [discover] *)

Definition discover (st : server_state) (fs : filesystem)
    (options : server_options) (client : sockaddr_in) (request : SIMPL_CMD)
    : reply :=
  let '(ok, sent) := check_data_empty request client in
  if ok then
    returns st fs
      (sent ++ [send_complex_message (socket st) client "GOOD_DAY"
                  (MCAST_ADDR options) (cmd_seq request) (available_space st)])
  else returns st fs sent.

(** ** [remove] *)

(** The search loop of [remove] and [fetch]: the first catalog entry whose
    file name is [target], with its position. *)
Fixpoint find_file (target : string) (l : list string) : option (nat * string) :=
  match l with
  | [] => None
  | p :: r =>
      if String.eqb (filename p) target then Some (O, p)
      else prod_map S id <$> find_file target r
  end.

(** The ledger part of [remove]: a file of [size] bytes is given back. *)
Definition refund (size : Z) (st : server_state) : server_state :=
  if 0 <? negative_space st then
    if size <? negative_space st then
      set_negative_space (wrap64 (negative_space st - size)) st
    else
      let size := wrap64 (size - negative_space st) in
      let st := set_negative_space 0 st in
      set_available_space (wrap64 (available_space st + size)) st
  else
    set_available_space (wrap64 (available_space st + size)) st.

Definition remove (st : server_state) (fs : filesystem)
    (client : sockaddr_in) (request : SIMPL_CMD) : reply :=
  let '(ok, sent) := check_data_not_empty request client in
  if ok then
    let target_file_name := data request in
    match find_file target_file_name (files st) with
    | Some (it, path) =>
        match file_size fs path with
        | Some size =>
            let st := refund size st in
            let fs := unlink path fs in
            returns (set_files (delete it (files st)) st) fs sent
        | None => throws st fs sent "file_size"
        end
    | None => returns st fs sent
    end
  else returns st fs sent.

(** ** Transfers over TCP: what the outside world does *)

(** What one [read] on the client's stream returns: some bytes (none at the
    end of the stream) or an error. *)
Inductive read_result := read_bytes (chunk : list byte) | read_failed.

(** What one [write] does: everything asked for, only the first [n] bytes,
    or an error. *)
Inductive write_result := write_all | write_some (n : nat) | write_failed.

(** What one [read] on the file being sent does: it gives the next bytes of
    the file, as many as the buffer holds (fewer at the end of the file,
    none after it), or it fails. *)
Inductive file_read := file_read_ok | file_read_failed.

(** What one [write] on the connection to the client does: it returns as a
    [write] does, or the client has closed the connection and the process
    is sent SIGPIPE, for which [add_signal_handlers] installs nothing: the
    process ends there. *)
Inductive socket_write :=
  | socket_write_returns (w : write_result)
  | socket_write_sigpipe.

Record transfer_env := {
  tcp_port : option Z;      (** [create_tcp_socket]: the port, or it throws *)
  select_ready : bool;      (** a client connected within [TIMEOUT] *)
  accept_ok : bool;
  open_ok : bool;
  close_ok : bool;
  reads : list read_result; (** successive reads on the client's stream *)
  writes : list write_result; (** successive writes on the backing file *)
  file_reads : list file_read; (** successive reads on the file sent *)
  socket_writes : list socket_write (** successive writes to the client *)
}.

(** The changes a child makes to the file system, in order. *)
Inductive fs_op :=
  | op_open (path : string)
  | op_write (bytes : list byte)
  | op_unlink (path : string).

(** One [write] on the backing file: the length asked for, the length
    returned and the bytes that reached the file. *)
Record write_call := { to_write_len : Z; write_len : Z; written : list byte }.

(** How a child ends. *)
Record child_exit := {
  x_state : server_state;   (** the child's own copy of the state *)
  x_ops : list fs_op;
  x_writes : list write_call; (** the writes of [receive_file] *)
  x_sent : list message;
  x_tcp : list byte;        (** bytes written to the client's socket *)
  x_error : bool;           (** [error_occurred] *)
  x_thrown : option string; (** it left through an exception, not [exit(0)] *)
  x_signal : option string  (** a signal ended it, before any exit *)
}.

(** [read_len] of a read. *)
Definition read_len_of (r : read_result) : Z :=
  match r with
  | read_bytes chunk => Z.of_nat (length chunk)
  | read_failed => -1
  end.

Definition buffer_of (r : read_result) : list byte :=
  match r with
  | read_bytes chunk => chunk
  | read_failed => []
  end.

(** Return value of a [write] of [n] bytes. *)
Definition write_len_of (w : write_result) (n : Z) : Z :=
  match w with
  | write_all => n
  | write_some k => Z.min (Z.of_nat k) n
  | write_failed => -1
  end.

Section handlers.
Context `{connection_h}.

(** ** [list]: the "search" command *)

(** The first loop of [list]: names of the catalog that contain the
    pattern, in catalog order. *)
Fixpoint search_results (target_file_name : string) (l : list string)
    : list string :=
  match l with
  | [] => []
  | file :: r =>
      let file_name := filename file in
      if contains target_file_name file_name
      then file_name :: search_results target_file_name r
      else search_results target_file_name r
  end.

(** The inner [while] of [list]: one UDP packet is filled.  [current] is
    the name put in last; the result is the packet and the names left. *)
Fixpoint prepare_packet (data current : string) (results : list string)
    : string * list string :=
  match results with
  | [] => (data, [])
  | next :: rest =>
      if str_size data + str_size current + 1 <? MAX_SIMPL_DATA_LEN then
        prepare_packet (data +:+ newline +:+ next) next rest
      else (data, results)
  end.

(** The outer [while (!results.empty())] of [list]; [fuel] bounds the
    number of packets. *)
Fixpoint send_packets (fuel : nat) (sock : Z) (client : sockaddr_in)
    (seq : Z) (results : list string) : list message :=
  match fuel with
  | O => []
  | S fuel' =>
      match results with
      | [] => []
      | current :: rest =>
          let '(data, rest') := prepare_packet current current rest in
          send_simple_message sock client "MY_LIST" data seq
            :: send_packets fuel' sock client seq rest'
      end
  end.

(** [list] of [server.cpp] (the name [list] is taken in Rocq). *)
Definition list_files (st : server_state) (fs : filesystem)
    (client : sockaddr_in) (request : SIMPL_CMD) : reply :=
  let target_file_name := data request in
  let results := search_results target_file_name (files st) in
  returns st fs
    (send_packets (length results) (socket st) client (cmd_seq request) results).

(** ** [send_file] and [fetch] *)

(** How the read-and-send loop of [send_file] ends: the file has been read
    to its end, an exception is thrown, or a signal ends the process. *)
Inductive loop_end :=
  | loop_done
  | loop_throws (what : string)
  | loop_killed (signal : string).

(** The read-and-send loop of [send_file], with the test on [read_len]
    that follows it, over the bytes [rest] of the file not read yet.  [rs]
    and [ws] are what the reads of the file and the writes to the client
    will do (when they run out, the calls work in full).  Result: the bytes
    that reached the client and how the loop ended. *)
Fixpoint send_loop (fuel : nat) (rest : list byte) (rs : list file_read)
    (ws : list socket_write) : list byte * loop_end :=
  match fuel with
  | O => ([], loop_done)
  | S fuel' =>
      let buffer := take (Z.to_nat BSIZE) rest in
      let read_len :=
        match hd file_read_ok rs with
        | file_read_ok => Z.of_nat (length buffer)
        | file_read_failed => -1
        end in
      if 0 <? read_len then
        match hd (socket_write_returns write_all) ws with
        | socket_write_returns w =>
            let snd_len := write_len_of w read_len in
            if snd_len =? read_len then
              let '(more, ending) :=
                send_loop fuel' (drop (Z.to_nat BSIZE) rest) (tl rs) (tl ws) in
              (buffer ++ more, ending)
            else
              (take (Z.to_nat snd_len) buffer,
               loop_throws "writing to client socket")
        | socket_write_sigpipe => ([], loop_killed "SIGPIPE")
        end
      else if read_len <? 0 then ([], loop_throws "read")
      else ([], loop_done)
  end.

Definition send_file (options : server_options) (st : server_state)
    (fs : filesystem) (client_udp : sockaddr_in) (request : SIMPL_CMD)
    (path : string) (env : transfer_env) : child_exit :=
  let exit sent tcp thrown signal :=
    {| x_state := st; x_ops := []; x_writes := []; x_sent := sent;
       x_tcp := tcp; x_error := false; x_thrown := thrown;
       x_signal := signal |} in
  match tcp_port env with
  | None => exit [] [] (Some "socket"%string) None
  | Some port =>
      let sent := [send_complex_message (socket st) client_udp "CONNECT_ME"
                     (data request) (cmd_seq request) port] in
      if select_ready env then
        if negb (accept_ok env) then exit sent [] (Some "accept"%string) None
        else
          match disk fs !! path with
          | None => exit sent [] (Some "open"%string) None
          | Some f =>
              if negb (open_ok env) then exit sent [] (Some "open"%string) None
              else
                let '(tcp, ending) :=
                  send_loop (S (length (content f))) (content f)
                    (file_reads env) (socket_writes env) in
                match ending with
                | loop_throws what => exit sent tcp (Some what) None
                | loop_killed signal => exit sent tcp None (Some signal)
                | loop_done =>
                    if negb (close_ok env)
                    then exit sent tcp (Some "close"%string) None
                    else exit sent tcp None None
                end
          end
      else exit sent [] None None
  end.

(** [fetch]: [fork_ok] tells whether [fork()] worked. *)
Definition fetch (options : server_options) (st : server_state)
    (fs : filesystem) (client : sockaddr_in) (request : SIMPL_CMD)
    (fork_ok : bool) : reply :=
  match find_file (data request) (files st) with
  | Some (_, file) =>
      if fork_ok then spawns st fs [] (send_file_job st client request file)
      else throws st fs [] "fork"
  | None => returns st fs [error_message client "Invalid file name."]
  end.

(** ** [receive_file] and [upload] *)

(** The [while] loop of [receive_file].  [cur] is the read made last,
    [reads] the ones to come (the stream has ended when they run out).
    Result: the writes made, and the final [remaining_file_size],
    [read_len] and [error_occurred]. *)
Fixpoint receive_loop (reads : list read_result) (ws : list write_result)
    (cur : read_result) (remaining_file_size : Z) (error_occurred : bool)
    : list write_call * Z * Z * bool :=
  let read_len := read_len_of cur in
  if (0 <? remaining_file_size) && (0 <? read_len) && negb error_occurred then
    let to_write_len := Z.min read_len remaining_file_size in
    let write_len := write_len_of (hd write_all ws) to_write_len in
    let call :=
      {| to_write_len := to_write_len; write_len := write_len;
         written := take (Z.to_nat write_len) (buffer_of cur) |} in
    let error_occurred :=
      if write_len =? to_write_len then error_occurred else true in
    let remaining_file_size := remaining_file_size - write_len in
    match reads with
    | [] => ([call], remaining_file_size, 0, error_occurred)
    | next :: reads' =>
        let '(more, remaining, len, err) :=
          receive_loop reads' (tl ws) next remaining_file_size error_occurred in
        (call :: more, remaining, len, err)
    end
  else ([], remaining_file_size, read_len, error_occurred).

Definition receive_file (options : server_options) (st : server_state)
    (client_udp : sockaddr_in) (request : CMPLX_CMD) (env : transfer_env)
    : child_exit :=
  let remaining_file_size := to_ssize (param request) in
  match tcp_port env with
  | None =>
      {| x_state := st; x_ops := []; x_writes := []; x_sent := []; x_tcp := [];
         x_error := false; x_thrown := Some "socket"%string; x_signal := None |}
  | Some port =>
      let file_name := SHRD_FLDR options +:+ "/" +:+ cmplx_data request in
      let sent := [send_complex_message (socket st) client_udp "CAN_ADD" ""
                     (cmplx_cmd_seq request) port] in
      let thrown st what :=
        {| x_state := st; x_ops := []; x_writes := []; x_sent := sent;
           x_tcp := []; x_error := false; x_thrown := Some what;
           x_signal := None |} in
      let finish st ops calls (error_occurred : bool) :=
        {| x_state := set_open_files (open_files st ∖ {[file_name]}) st;
           x_ops := ops ++ (if error_occurred then [op_unlink file_name] else []);
           x_writes := calls;
           x_sent := sent; x_tcp := []; x_error := error_occurred;
           x_thrown := None; x_signal := None |} in
      if select_ready env then
        if negb (accept_ok env) then thrown st "accept"%string
        else if negb (open_ok env) then thrown st "open"%string
        else
          let st := set_open_files ({[file_name]} ∪ open_files st) st in
          let first := match reads env with r :: _ => r | [] => read_bytes [] end in
          let '(calls, remaining, read_len, error_occurred) :=
            receive_loop (tl (reads env)) (writes env) first
              remaining_file_size false in
          let ops := op_open file_name :: (op_write ∘ written <$> calls) in
          let error_occurred :=
            if (read_len <? 0) || negb (remaining =? 0) then true
            else error_occurred in
          if negb (close_ok env) then
            {| x_state := st; x_ops := ops; x_writes := calls; x_sent := sent;
               x_tcp := []; x_error := error_occurred;
               x_thrown := Some "close"%string; x_signal := None |}
          else finish st ops calls error_occurred
      else finish st [] [] false
  end.

(** [upload]: [fork_ok] tells whether [fork()] worked. *)
Definition upload (options : server_options) (st : server_state)
    (fs : filesystem) (client : sockaddr_in) (request : CMPLX_CMD)
    (fork_ok : bool) : reply :=
  let exists_ :=
    existsb (fun file => String.eqb (filename file) (cmplx_data request))
      (files st) in
  if (available_space st <? param request) || exists_
     || contains_char slash (cmplx_data request)
     || String.eqb (cmplx_data request) "" then
    returns st fs
      [send_simple_message (socket st) client "NO_WAY" (cmplx_data request)
         (cmplx_cmd_seq request)]
  else
    let st := set_available_space (wrap64 (available_space st - param request)) st in
    let new_file := SHRD_FLDR options +:+ "/" +:+ cmplx_data request in
    let st := set_files (files st ++ [new_file]) st in
    if fork_ok then spawns st fs [] (receive_file_job st client request)
    else throws st fs [] "fork".

(** ** One turn of the loop of [read_requests] *)

(** [rcv_len] and [buffer] are what [recvfrom] gave. *)
Definition read_requests (options : server_options) (st : server_state)
    (fs : filesystem) (client_address : sockaddr_in) (buffer : list byte)
    (rcv_len : Z) (fork_ok : bool) : reply :=
  if rcv_len <? 0 then throws st fs [] "read"
  else if message_too_short SIMPL_CMD_min_size rcv_len then returns st fs []
  else
    let request := make_SIMPL_CMD buffer rcv_len in
    if command_equal request "HELLO" then
      discover st fs options client_address request
    else if command_equal request "DEL" then
      remove st fs client_address request
    else if command_equal request "LIST" then
      list_files st fs client_address request
    else if command_equal request "GET" then
      fetch options st fs client_address request fork_ok
    else if command_equal request "ADD" then
      if message_too_short CMPLX_CMD_min_size rcv_len then returns st fs []
      else
        let complex_request := with_uint64_param (make_CMPLX_CMD buffer rcv_len) in
        upload options st fs client_address complex_request fork_ok
    else returns st fs [error_message client_address "Invalid cmd."].

End handlers.


(** ** [read_options] *)

Definition MAX_SPACE_DEFAULT : Z := 52428800.
Definition TIMEOUT_DEFAULT : Z := 5.
Definition TIMEOUT_MAX : Z := 300.

(** What [po::store] and [po::notify] leave of the command line: for each
    option the value given, if it was given.  (The parsing of the words of
    the command line is Boost's.) *)
Record variables_map := {
  vm_mcast_addr : option string;
  vm_cmd_port : option Z;
  vm_max_space : option Z;
  vm_shrd_fldr : option string;
  vm_timeout : option Z
}.

(** [variables.count(variable)]; the two options with a default value are
    always counted. *)
Definition variables_count (variables : variables_map) (variable : string) : bool :=
  if String.eqb variable "mcast-addr" then bool_decide (is_Some (vm_mcast_addr variables))
  else if String.eqb variable "cmd-port" then bool_decide (is_Some (vm_cmd_port variables))
  else if String.eqb variable "shrd-fldr" then bool_decide (is_Some (vm_shrd_fldr variables))
  else if String.eqb variable "max-space" then true
  else if String.eqb variable "timeout" then true
  else false.

Definition mandatory_variables : list string :=
  ["mcast-addr"; "cmd-port"; "shrd-fldr"]%string.

(** [read_options] from the variables map on: the result is the options,
    or the text of the [std::invalid_argument] thrown. *)
Definition read_options (variables : variables_map) : string + server_options :=
  let options :=
    {| MCAST_ADDR := default ""%string (vm_mcast_addr variables);
       CMD_PORT := default 0 (vm_cmd_port variables);
       MAX_SPACE := default MAX_SPACE_DEFAULT (vm_max_space variables);
       SHRD_FLDR := default ""%string (vm_shrd_fldr variables);
       TIMEOUT := default TIMEOUT_DEFAULT (vm_timeout variables) |} in
  match List.find (fun variable => negb (variables_count variables variable))
          mandatory_variables with
  | Some variable => inl variable
  | None =>
      if (TIMEOUT_MAX <? TIMEOUT options) || (TIMEOUT options =? 0) then
        inl "timeout"%string
      else if CMD_PORT options <? 0 then inl "port"%string
      else inr options
  end.

(** ** [clean_up] *)

(** The system calls of [clean_up], in the order made. *)
Inductive system_call :=
  | call_kill_group
  | call_drop_membership (sock : Z) (mreq : Z * Z)
  | call_close (sock : Z)
  | call_unlink (path : string).

Record cleaned := {
  c_fs : filesystem;
  c_calls : list system_call;
  c_thrown : option string
}.

(** [clean_up]: [is_parent] is [getpid() == parent_pid], [drop_ok] tells
    whether the [setsockopt] that drops the multicast membership works. *)
Definition clean_up (st : server_state) (fs : filesystem)
    (is_parent drop_ok : bool) : cleaned :=
  let drop := call_drop_membership (socket st) (ip_mreq st) in
  if is_parent && negb drop_ok then
    {| c_fs := fs; c_calls := [call_kill_group; drop];
       c_thrown := Some "setsockopt"%string |}
  else
    {| c_fs := foldl (fun fs path => unlink path fs) fs (elements (open_files st));
       c_calls :=
         [call_kill_group] ++ (if is_parent then [drop] else [])
           ++ [call_close (socket st)]
           ++ (call_unlink <$> elements (open_files st));
       c_thrown := None |}.

(** ** Children at work on the file system *)

(** A child between two of its file-system calls: the descriptor it holds
    (name it was opened under, inode), the offset of that descriptor, and
    the calls still to make. *)
Record task := {
  t_fd : option (string * nat);
  t_off : nat;
  t_ops : list fs_op
}.

(** One file-system call of a child. *)
Definition exec_op (op : fs_op) (fd : option (string * nat)) (off : nat)
    (fs : filesystem) : option (string * nat) * nat * filesystem :=
  match op with
  | op_open path =>
      let '(fs', i) := open_create path fs in (Some (path, i), O, fs')
  | op_write bytes =>
      match fd with
      | Some (path, i) => (fd, (off + length bytes)%nat, write_at path i off bytes fs)
      | None => (fd, off, fs)
      end
  | op_unlink path => (fd, off, unlink path fs)
  end.

(** All the calls of a child in a row, nobody else touching the files. *)
Fixpoint run_ops (ops : list fs_op) (fd : option (string * nat)) (off : nat)
    (fs : filesystem) : filesystem :=
  match ops with
  | [] => fs
  | op :: rest =>
      let '(fd', off', fs') := exec_op op fd off fs in run_ops rest fd' off' fs'
  end.

(** Number of bytes the calls write. *)
Fixpoint bytes_written (ops : list fs_op) : Z :=
  match ops with
  | [] => 0
  | op_write bytes :: rest => Z.of_nat (length bytes) + bytes_written rest
  | _ :: rest => bytes_written rest
  end.

(** ** The server and its children as one system *)

Record world := {
  w_state : server_state;   (** the state of the serving process *)
  w_fs : filesystem;
  w_tasks : list task       (** the children forked so far *)
}.

Section world.
Context `{connection_h} (options : server_options).

Definition run_job (fs : filesystem) (child : job) (env : transfer_env)
    : child_exit :=
  match child with
  | send_file_job st client request path =>
      send_file options st fs client request path env
  | receive_file_job st client request =>
      receive_file options st client request env
  end.

Definition new_tasks (fs : filesystem) (child : option job)
    (env : transfer_env) : list task :=
  match child with
  | Some j => [{| t_fd := None; t_off := O; t_ops := x_ops (run_job fs j env) |}]
  | None => []
  end.

(** The system after one turn of the loop of [read_requests]; [env] is what
    the child forked in that turn, if any, will meet. *)
Definition after_request (w : world) (r : reply) (env : transfer_env) : world :=
  {| w_state := r_state r; w_fs := r_fs r;
     w_tasks := w_tasks w ++ new_tasks (w_fs w) (r_child r) env |}.

(** The system after child number [i] made its next call [op]. *)
Definition after_op (w : world) (i : nat) (t : task) (op : fs_op)
    (rest : list fs_op) : world :=
  let '(fd, off, fs) := exec_op op (t_fd t) (t_off t) (w_fs w) in
  {| w_state := w_state w; w_fs := fs;
     w_tasks := <[i := {| t_fd := fd; t_off := off; t_ops := rest |}]> (w_tasks w) |}.

(** The serving process handles datagrams one after the other; the children
    make their calls in between, in any order.  (A turn that throws ends the
    serving process; the state it leaves is kept as a state of the run.) *)
Inductive step : world -> world -> Prop :=
  | step_request w client buffer rcv_len fork_ok env :
      step w (after_request w
                (read_requests options (w_state w) (w_fs w) client buffer
                   rcv_len fork_ok) env)
  | step_child w i t op rest :
      w_tasks w !! i = Some t -> t_ops t = op :: rest ->
      step w (after_op w i t op rest).

(** The shared folder at startup: its regular files, path and bytes. *)
Fixpoint folder_disk (i : nat) (folder : list (string * list byte))
    : gmap string file :=
  match folder with
  | [] => ∅
  | (path, bytes) :: rest =>
      <[path := {| ino := i; content := bytes |}]> (folder_disk (S i) rest)
  end.

Definition folder_listing (folder : list (string * list byte)) : list dir_entry :=
  (fun '(path, bytes) =>
     {| e_path := path; e_regular := true; e_size := Z.of_nat (length bytes) |})
    <$> folder.

(** [main] up to the loop: the state after [index_files], no child yet. *)
Definition startup (folder : list (string * list byte)) : world :=
  {| w_state :=
       match index_files options current_server_state
               (Some (folder_listing folder)) with
       | inr st => st
       | inl _ => current_server_state
       end;
     w_fs := {| disk := folder_disk O folder; next_ino := length folder |};
     w_tasks := [] |}.

Definition reachable (folder : list (string * list byte)) (w : world) : Prop :=
  rtc step (startup folder) w.

End world.

(** * Vocabulary of the statements *)

(** The "cannot accept" datagram for a request. *)
Definition no_way (st : server_state) (client : sockaddr_in)
    (request : CMPLX_CMD) : message :=
  send_simple_message (socket st) client "NO_WAY" (cmplx_data request)
    (cmplx_cmd_seq request).

(** The four grounds for turning an upload down. *)
Definition must_reject (st : server_state) (request : CMPLX_CMD) : Prop :=
  available_space st < param request
  \/ cmplx_data request ∈ filename <$> files st
  \/ slash ∈ list_ascii_of_string (cmplx_data request)
  \/ cmplx_data request = ""%string.

(** The command names the loop of [read_requests] knows. *)
Definition command_names : list string := ["HELLO"; "DEL"; "LIST"; "GET"; "ADD"]%string.

(** The payload of a datagram handed to a client. *)
Definition payload_of (m : message) : string :=
  match m with
  | send_simple_message _ _ _ payload _ => payload
  | send_complex_message _ _ _ payload _ _ => payload
  | error_message _ text => text
  end.

(** Names joined by one newline each. *)
Definition join_lines (names : list string) : string := String.concat newline names.

(** "Exactly one reply datagram with an empty payload". *)
Definition one_empty_reply (sent : list message) : Prop :=
  exists sock client seq, sent = [send_simple_message sock client "MY_LIST" "" seq].

(** A string of [n] copies of a character. *)
Definition repeat_char (c : ascii) (n : nat) : string :=
  string_of_list_ascii (replicate n c).

(** A search for everything. *)
Definition list_all (seq : Z) : SIMPL_CMD := {| cmd := "LIST"; cmd_seq := seq; data := "" |}.

(** A catalog of two names: seven characters, then [MAX_SIMPL_DATA_LEN - 8]
    characters. *)
Definition long_second_name `{connection_h} : string :=
  repeat_char "b" (Z.to_nat (MAX_SIMPL_DATA_LEN - 8)).

Definition long_second_name_state `{connection_h} : server_state :=
  set_files ["shared/aaaaaaa"%string; "shared" +:+ "/" +:+ long_second_name]
    current_server_state.

(** The transfer got as far as the receiving loop: the socket was made, a
    client connected in time and was accepted, the backing file opened. *)
Definition transfer_started (env : transfer_env) : Prop :=
  tcp_port env <> None /\ select_ready env = true /\ accept_ok env = true
  /\ open_ok env = true.

(** Total size of the files of the shared folder. *)
Definition folder_size (folder : list (string * list byte)) : Z :=
  foldr (fun entry acc => Z.of_nat (length entry.2) + acc) 0 folder.

(** ** The invariant of the run *)

(** Bytes held by the files on disk. *)
Definition add_size (path : string) (f : file) (acc : Z) : Z :=
  Z.of_nat (length (content f)) + acc.

Definition disk_size (d : gmap string file) : Z := map_fold add_size 0 d.

(** Bytes the children have still to write. *)
Definition pending_bytes (tasks : list task) : Z :=
  foldr (fun t acc => bytes_written (t_ops t) + acc) 0 tasks.

(** The descriptor of a child, if it has one, is of an inode handed out
    before, and while the name it was opened under still leads to that
    inode, its offset is within the file. *)
Definition fd_ok (fs : filesystem) (t : task) : Prop :=
  match t_fd t with
  | Some (path, i) =>
      (i < next_ino fs)%nat
      /\ forall f, disk fs !! path = Some f -> ino f = i ->
           (t_off t <= length (content f))%nat
  | None => True
  end.

(** What free space, files on disk and writes to come add up to never
    exceeds the quota plus the debt; debt and free space exclude each
    other; everything fits 64 bits. *)
Record world_ok (quota : Z) (w : world) : Prop := {
  ok_inodes :
    forall path f, disk (w_fs w) !! path = Some f -> (ino f < next_ino (w_fs w))%nat;
  ok_offsets : Forall (fd_ok (w_fs w)) (w_tasks w);
  ok_available : u64 (available_space (w_state w));
  ok_negative : u64 (negative_space (w_state w));
  ok_exclusive :
    0 < negative_space (w_state w) -> available_space (w_state w) = 0;
  ok_debt : quota + negative_space (w_state w) < 2 ^ 64;
  ok_total :
    available_space (w_state w) + disk_size (disk (w_fs w))
      + pending_bytes (w_tasks w)
    <= quota + negative_space (w_state w)
}.

(** * Concrete inputs

    A server to run the model on: options, a decoder for fixed-width
    records of the kind the spec describes (here a NUL-padded command field
    of ten bytes, a sequence number and, in the complex record, a parameter,
    each of eight bytes in network order, then the payload), and a few
    clients. *)

Definition be_uint (bs : list byte) : Z :=
  foldl (fun acc b => acc * 256 + Z.of_N (Byte.to_N b)) 0 bs.

Definition sample_SIMPL_CMD (buffer : list byte) (rcv_len : Z) : SIMPL_CMD :=
  let b := take (Z.to_nat rcv_len) buffer in
  {| cmd := string_of_list_byte (take 10 b);
     cmd_seq := be_uint (take 8 (drop 10 b));
     data := string_of_list_byte (drop 18 b) |}.

Definition sample_CMPLX_CMD (buffer : list byte) (rcv_len : Z) : CMPLX_CMD :=
  let b := take (Z.to_nat rcv_len) buffer in
  {| cmplx_cmd := string_of_list_byte (take 10 b);
     cmplx_cmd_seq := be_uint (take 8 (drop 10 b));
     param := be_uint (take 8 (drop 18 b));
     cmplx_data := string_of_list_byte (drop 26 b) |}.

Definition sample_connection : connection_h :=
  {| BSIZE := 512;
     MAX_SIMPL_DATA_LEN := 65489;
     SIMPL_CMD_min_size := 18;
     CMPLX_CMD_min_size := 26;
     make_SIMPL_CMD := sample_SIMPL_CMD;
     make_CMPLX_CMD := sample_CMPLX_CMD |}.

Definition sample_options : server_options :=
  {| MCAST_ADDR := "239.10.11.12"; CMD_PORT := 6543; MAX_SPACE := 100;
     SHRD_FLDR := "shared"; TIMEOUT := 5 |}.

Definition sample_client : sockaddr_in := (3232235777, 40000).

(** A file of [n] zero bytes in inode [i]. *)
Definition zeros (i n : nat) : file := {| ino := i; content := replicate n x00 |}.

(** The scenario of the spec: a quota of 100 and one file of 150 bytes in
    the shared folder at startup. *)
Definition big_file_listing : list dir_entry :=
  [ {| e_path := "shared/big"; e_regular := true; e_size := 150 |} ].

Definition big_file_fs : filesystem :=
  {| disk := {[ "shared/big"%string := zeros 0 150 ]}; next_ino := 1 |}.

Definition big_file_state : server_state :=
  match index_files sample_options current_server_state (Some big_file_listing) with
  | inr st => st
  | inl _ => current_server_state
  end.

Definition del_big : SIMPL_CMD := {| cmd := "DEL"; cmd_seq := 7; data := "big" |}.

(** A server with two files, 60 of its 100 bytes still free. *)
Definition two_files_state : server_state :=
  {| available_space := 60; negative_space := 0; socket := 3;
     ip_mreq := (4009364236, 0); files := ["shared/a"; "shared/b"]%string;
     open_files := ∅ |}.

Definition two_files_fs : filesystem :=
  {| disk := {[ "shared/a"%string := zeros 0 30; "shared/b"%string := zeros 1 10 ]};
     next_ino := 2 |}.


Definition add_a : CMPLX_CMD :=
  {| cmplx_cmd := "ADD"; cmplx_cmd_seq := 13; param := 1; cmplx_data := "a" |}.

Definition get_missing : SIMPL_CMD := {| cmd := "GET"; cmd_seq := 14; data := "zzz" |}.

Definition del_missing : SIMPL_CMD := {| cmd := "DEL"; cmd_seq := 9; data := "zzz" |}.

Definition list_missing : SIMPL_CMD := {| cmd := "LIST"; cmd_seq := 10; data := "zzz" |}.

(** A datagram whose command field is "HELLOX" padded with NULs, sequence
    number 1, no payload. *)
Definition hellox_datagram : list byte :=
  list_byte_of_string "HELLOX" ++ replicate 4 x00 ++ replicate 7 x00 ++ [x01].

(** A client that connects and sends eight bytes in two reads of four, for
    an upload declared as five bytes; every system call works. *)
Definition eager_client : transfer_env :=
  {| tcp_port := Some 50000; select_ready := true; accept_ok := true;
     open_ok := true; close_ok := true;
     reads := [read_bytes [x01; x02; x03; x04]; read_bytes [x05; x06; x07; x08]];
     writes := []; file_reads := []; socket_writes := [] |}.

(** A client that connects and sends only three bytes. *)
Definition short_client : transfer_env :=
  {| tcp_port := Some 50000; select_ready := true; accept_ok := true;
     open_ok := true; close_ok := true;
     reads := [read_bytes [x01; x02; x03]];
     writes := []; file_reads := []; socket_writes := [] |}.

(** The same client, for a server whose [close] of the connection fails. *)
Definition short_client_failing_close : transfer_env :=
  {| tcp_port := Some 50000; select_ready := true; accept_ok := true;
     open_ok := true; close_ok := false;
     reads := [read_bytes [x01; x02; x03]];
     writes := []; file_reads := []; socket_writes := [] |}.

Definition add_five : CMPLX_CMD :=
  {| cmplx_cmd := "ADD"; cmplx_cmd_seq := 12; param := 5; cmplx_data := "five" |}.

(** A datagram "DEL a" with sequence number 0. *)
Definition del_a_datagram : list byte :=
  list_byte_of_string "DEL" ++ replicate 7 x00 ++ replicate 8 x00
    ++ list_byte_of_string "a".

Definition two_files_folder : list (string * list byte) :=
  [("shared/a"%string, replicate 30 x00); ("shared/b"%string, replicate 10 x00)].

(** A datagram "ADD five" declaring five bytes, sequence number 0. *)
Definition add_five_datagram : list byte :=
  list_byte_of_string "ADD" ++ replicate 7 x00 ++ replicate 8 x00
    ++ replicate 7 x00 ++ [x05] ++ list_byte_of_string "five".

(** A short run: the folder holds "a" (30 bytes) and "b" (10 bytes), the
    quota is 100; "a" is removed, an upload of "five" is accepted, and the
    child of that upload creates the backing file. *)
Definition run_1 : world :=
  after_request (H := sample_connection) sample_options
    (startup sample_options two_files_folder)
    (read_requests (H := sample_connection) sample_options
       (w_state (startup sample_options two_files_folder))
       (w_fs (startup sample_options two_files_folder))
       sample_client del_a_datagram 19 true)
    eager_client.

Definition run_2 : world :=
  after_request (H := sample_connection) sample_options run_1
    (read_requests (H := sample_connection) sample_options
       (w_state run_1) (w_fs run_1) sample_client add_five_datagram 30 true)
    eager_client.

Definition five_child : task :=
  {| t_fd := None; t_off := O;
     t_ops := [op_open "shared/five"; op_write [x01; x02; x03; x04];
               op_write [x05]] |}.

Definition run_3 : world :=
  after_op run_2 O five_child (op_open "shared/five")
    [op_write [x01; x02; x03; x04]; op_write [x05]].

(** * Further vocabulary *)

(** Paths of the regular files of a listing, in its order, and their total
    size. *)
Fixpoint regular_paths (entries : list dir_entry) : list string :=
  match entries with
  | [] => []
  | e :: rest =>
      if e_regular e then e_path e :: regular_paths rest else regular_paths rest
  end.

Fixpoint regular_size (entries : list dir_entry) : Z :=
  match entries with
  | [] => 0
  | e :: rest =>
      if e_regular e then e_size e + regular_size rest else regular_size rest
  end.

(** A shared folder with a subdirectory and two files. *)
Definition mixed_listing : list dir_entry :=
  [ {| e_path := "shared/sub"; e_regular := false; e_size := 4096 |};
    {| e_path := "shared/a"; e_regular := true; e_size := 30 |};
    {| e_path := "shared/b"; e_regular := true; e_size := 10 |} ].

(** A command name followed by [k] NULs: what a fixed-width command field
    holds. *)
Definition padded (name : string) (k : nat) : string :=
  name +:+ repeat_char NUL k.

(** A datagram "HELLO" with sequence number 1 and no payload. *)
Definition hello_datagram : list byte :=
  list_byte_of_string "HELLO" ++ replicate 5 x00 ++ replicate 7 x00 ++ [x01].

(** What no handler touches: the socket, the multicast group, the set of
    open files and the inode counter; and the serving process creates no
    file and changes none, it only removes. *)
Definition keeps_frame (st : server_state) (fs : filesystem) (r : reply) : Prop :=
  socket (r_state r) = socket st
  /\ ip_mreq (r_state r) = ip_mreq st
  /\ open_files (r_state r) = open_files st
  /\ next_ino (r_fs r) = next_ino fs
  /\ forall path f, disk (r_fs r) !! path = Some f -> disk fs !! path = Some f.



Definition del_a : SIMPL_CMD := {| cmd := "DEL"; cmd_seq := 16; data := "a" |}.

(** Names in an order in which none is longer than the one before it. *)
Fixpoint never_longer (names : list string) : Prop :=
  match names with
  | a :: (b :: _) as rest => str_size b <= str_size a /\ never_longer rest
  | _ => True
  end.

Definition list_a_or_b : SIMPL_CMD := {| cmd := "LIST"; cmd_seq := 17; data := "" |}.

(** The bytes a client sends, read after read. *)
Definition stream_of (env : transfer_env) : list byte :=
  concat (buffer_of <$> reads env).

(** The file system after a child made all its calls undisturbed. *)
Definition after_child (x : child_exit) (fs : filesystem) : filesystem :=
  run_ops (x_ops x) None O fs.

(** A client that connects and sends "hello" in two pieces, then one byte
    too many; every call of the server works. *)
Definition hello_client : transfer_env :=
  {| tcp_port := Some 50002; select_ready := true; accept_ok := true;
     open_ok := true; close_ok := true;
     reads := [read_bytes [x68; x65; x6c]; read_bytes [x6c; x6f; x21];
               read_bytes []];
     writes := []; file_reads := []; socket_writes := [] |}.

(** A client that connects and takes everything it is sent. *)
Definition patient_client : transfer_env :=
  {| tcp_port := Some 50003; select_ready := true; accept_ok := true;
     open_ok := true; close_ok := true; reads := []; writes := [];
     file_reads := []; socket_writes := [] |}.

Definition get_a : SIMPL_CMD := {| cmd := "GET"; cmd_seq := 18; data := "a" |}.



(** An upload that declares 2^63 bytes. *)
Definition add_huge : CMPLX_CMD :=
  {| cmplx_cmd := "ADD"; cmplx_cmd_seq := 20; param := 2 ^ 63;
     cmplx_data := "huge" |}.
(** * Basic facts *)

Lemma wrap64_small z : u64 z -> wrap64 z = z.
Proof. intros Hz. apply Z.mod_small. exact Hz. Qed.

Lemma wrap64_u64 z : u64 (wrap64 z).
Proof. unfold u64, wrap64. apply Z.mod_pos_bound. reflexivity. Qed.

Lemma u64_0 : u64 0.
Proof. unfold u64. split; [lia | reflexivity]. Qed.

Lemma length_append (s t : string) :
  String.length (s +:+ t) = (String.length s + String.length t)%nat.
Proof. induction s as [|a s IH]; simpl; [reflexivity | now rewrite IH]. Qed.

Lemma str_size_append s t : str_size (s +:+ t) = str_size s + str_size t.
Proof. unfold str_size. rewrite length_append. lia. Qed.

Lemma str_size_nonneg s : 0 <= str_size s.
Proof. unfold str_size. lia. Qed.

(** [contains_char] finds exactly the characters of the string. *)
Lemma contains_char_spec c s :
  contains_char c s = true <-> c ∈ list_ascii_of_string s.
Proof.
  induction s as [|a s IH]; simpl.
  - split; [discriminate | intros Hin; inversion Hin].
  - destruct (Ascii.eqb_spec a c) as [->|Hne].
    + split; [intros _; left | reflexivity].
    + rewrite IH. split; [now right | ].
      intros Hin. inversion Hin; subst; [congruence | assumption].
Qed.

Lemma contains_char_append c s t :
  contains_char c (s +:+ t) = contains_char c s || contains_char c t.
Proof.
  induction s as [|a s IH]; simpl; [reflexivity | ].
  destruct (Ascii.eqb a c); [reflexivity | exact IH].
Qed.

(** The last component of [dir/name] is [name] when [name] has no
    separator. *)
Lemma filename_join dir name :
  contains_char slash name = false ->
  filename (dir +:+ "/" +:+ name) = name.
Proof.
  intros Hname. induction dir as [|a dir IH].
  - change (filename (String slash name) = name). simpl. now rewrite Hname.
  - change (filename (String a (dir +:+ String slash name)) = name). simpl.
    rewrite contains_char_append. simpl. rewrite orb_true_r. exact IH.
Qed.

Lemma find_file_Some target l it path :
  find_file target l = Some (it, path) ->
  l !! it = Some path /\ filename path = target.
Proof.
  revert it. induction l as [|p r IH]; intros it; simpl; [discriminate | ].
  destruct (String.eqb_spec (filename p) target) as [Heq|Hne].
  - intros [= <- <-]. now split.
  - destruct (find_file target r) as [[j q]|]; simpl; [ | discriminate].
    intros [= <- <-]. simpl. now apply IH.
Qed.

Lemma find_file_None target l :
  find_file target l = None <-> target ∉ filename <$> l.
Proof.
  induction l as [|p r IH]; simpl.
  - split; [intros _ Hin; inversion Hin | reflexivity].
  - destruct (String.eqb_spec (filename p) target) as [Heq|Hne].
    + split; [discriminate | ]. intros Hn. exfalso. apply Hn. rewrite Heq. left.
    + rewrite not_elem_of_cons, <- IH.
      destruct (find_file target r) as [[j q]|]; simpl.
      * split; [discriminate | intros [_ ?]; discriminate].
      * split; [intros _; split; [congruence | reflexivity] | reflexivity].
Qed.

Lemma existsb_filename target l :
  existsb (fun file => String.eqb (filename file) target) l = true
  <-> target ∈ filename <$> l.
Proof.
  induction l as [|p r IH]; simpl.
  - split; [discriminate | intros Hin; inversion Hin].
  - rewrite orb_true_iff, IH, elem_of_cons, String.eqb_eq.
    split; (intros [?|?]; [left; congruence | now right]).
Qed.

(** Closes [x ∉ l] for a list given in full with distinct constants. *)
Ltac not_listed :=
  let Hin := fresh "Hin" in
  intros Hin; apply (proj1 (list_elem_of_In _ _)) in Hin; simpl in Hin;
  repeat (destruct Hin as [Hin | Hin]; [discriminate Hin | ]);
  exact Hin.

Lemma append_cons a s t : String a s +:+ t = String a (s +:+ t).
Proof. reflexivity. Qed.

Lemma append_nil t : "" +:+ t = t.
Proof. reflexivity. Qed.

(** * The ledger on removal *)

Lemma file_size_u64 fs path s : file_size fs path = Some s -> u64 s.
Proof.
  unfold file_size. destruct (disk fs !! path); [ | discriminate].
  intros [= <-]. apply wrap64_u64.
Qed.

(** What [refund] does to the two counters, in one formula. *)
Lemma refund_spec s st :
  u64 (available_space st) -> u64 (negative_space st) -> u64 s ->
  negative_space (refund s st) = negative_space st - Z.min (negative_space st) s
  /\ available_space (refund s st)
     = wrap64 (available_space st + (s - Z.min (negative_space st) s)).
Proof.
  intros Ha Hn Hs. unfold refund, u64 in *.
  destruct (Z.ltb_spec 0 (negative_space st)) as [Hpos|Hzero].
  - destruct (Z.ltb_spec s (negative_space st)) as [Hlt|Hge]; simpl.
    + rewrite Z.min_r by lia. rewrite !wrap64_small by (unfold u64; lia).
      split; [lia | f_equal; lia].
    + rewrite Z.min_l by lia. rewrite (wrap64_small (s - _)) by (unfold u64; lia).
      split; [lia | reflexivity].
  - simpl. assert (negative_space st = 0) as -> by lia.
    rewrite Z.min_l by lia. split; [lia | f_equal; lia].
Qed.

(** C1.  Removing a catalog file of size [s] repays the debt first:
    [negative_space] goes down by [min(negative_space, s)] and only the rest
    of [s] is added (in 64-bit arithmetic) to [available_space]. *)
Theorem remove_repays_debt_first st fs client request it path s :
  u64 (available_space st) -> u64 (negative_space st) ->
  data request <> ""%string ->
  find_file (data request) (files st) = Some (it, path) ->
  file_size fs path = Some s ->
  negative_space (r_state (remove st fs client request))
    = negative_space st - Z.min (negative_space st) s
  /\ available_space (r_state (remove st fs client request))
    = wrap64 (available_space st + (s - Z.min (negative_space st) s)).
Proof.
  intros Ha Hn Hdata Hfind Hsize.
  unfold remove, check_data_not_empty.
  destruct (String.eqb_spec (data request) "") as [Heq|_]; [contradiction | ].
  rewrite Hfind, Hsize. simpl.
  apply refund_spec; [assumption .. | ]. eapply file_size_u64, Hsize.
Qed.

(** The scenario of the spec: with a quota of 100 and one startup file of
    150 bytes, indexing leaves [available_space = 0] and
    [negative_space = 50]; removing the file gives [negative_space = 0] and
    [available_space = 100]. *)
Lemma remove_repays_debt_first_scenario :
  (available_space big_file_state = 0 /\ negative_space big_file_state = 50)
  /\ negative_space (r_state (remove big_file_state big_file_fs sample_client del_big)) = 0
  /\ available_space (r_state (remove big_file_state big_file_fs sample_client del_big)) = 100.
Proof.
  split; [split; reflexivity | ].
  exact (remove_repays_debt_first
           big_file_state big_file_fs sample_client del_big
           0%nat "shared/big"%string 150
           ltac:(vm_compute; split; [discriminate | reflexivity])
           ltac:(vm_compute; split; [discriminate | reflexivity])
           ltac:(discriminate)
           ltac:(reflexivity)
           ltac:(vm_compute; reflexivity)).
Defined.

(** * Upload admission *)

Lemma upload_test st request :
  (available_space st <? param request)
  || existsb (fun file => String.eqb (filename file) (cmplx_data request)) (files st)
  || contains_char slash (cmplx_data request)
  || String.eqb (cmplx_data request) "" = true
  <-> must_reject st request.
Proof.
  unfold must_reject.
  rewrite !orb_true_iff, Z.ltb_lt, existsb_filename, contains_char_spec,
    String.eqb_eq.
  tauto.
Qed.

Lemma upload_rejected options st fs client request fork_ok :
  must_reject st request ->
  upload options st fs client request fork_ok
  = returns st fs [no_way st client request].
Proof.
  intros Hrej. apply upload_test in Hrej. unfold upload. now rewrite Hrej.
Qed.

Lemma upload_accepted options st fs client request fork_ok :
  ~ must_reject st request ->
  let st' :=
    set_files (files st ++ [SHRD_FLDR options +:+ "/" +:+ cmplx_data request])
      (set_available_space (wrap64 (available_space st - param request)) st) in
  upload options st fs client request fork_ok
  = if fork_ok then spawns st' fs [] (receive_file_job st' client request)
    else throws st' fs [] "fork".
Proof.
  intros Hacc. rewrite <- upload_test in Hacc. apply not_true_is_false in Hacc.
  unfold upload. now rewrite Hacc.
Qed.

(** C2.  An upload is answered with "cannot accept" exactly when the
    declared size exceeds [available_space], or the name is in the catalog,
    or it contains a path separator, or it is empty; and then neither the
    ledger, the catalog nor the files on disk change, and no child is
    started. *)
Theorem upload_rejected_iff options st fs client request fork_ok :
  (r_sent (upload options st fs client request fork_ok)
     = [no_way st client request]
   <-> must_reject st request)
  /\ (must_reject st request ->
      upload options st fs client request fork_ok
      = returns st fs [no_way st client request]).
Proof.
  split; [ | apply upload_rejected].
  split; [ | intros Hrej; now rewrite upload_rejected].
  intros Hsent. destruct (decide (must_reject st request)) as [Hrej|Hacc];
    [exact Hrej | ].
  rewrite upload_accepted in Hsent by exact Hacc.
  destruct fork_ok; discriminate.
Qed.

(** An upload of the name "a", which the catalog has, is turned down and
    nothing changes. *)
Lemma upload_rejected_iff_example :
  upload sample_options two_files_state two_files_fs sample_client add_a true
  = returns two_files_state two_files_fs
      [no_way two_files_state sample_client add_a].
Proof.
  apply (proj2 (upload_rejected_iff sample_options two_files_state two_files_fs
                  sample_client add_a true)).
  right. left. simpl. apply list_elem_of_here.
Defined.



(** * Removal of an unknown name *)

(** C9.  A remove request with a non-empty name sends nothing, whether it
    succeeds or not; when the name is not in the catalog the handler
    returns with the state and the file system as they were. *)
Theorem remove_unknown_is_silent st fs client request :
  data request <> ""%string ->
  r_sent (remove st fs client request) = []
  /\ (data request ∉ filename <$> files st ->
      remove st fs client request = returns st fs []).
Proof.
  intros Hdata. unfold remove, check_data_not_empty.
  destruct (String.eqb_spec (data request) "") as [Heq|_]; [contradiction | ].
  split.
  - destruct (find_file (data request) (files st)) as [[it path]|];
      [ | reflexivity].
    destruct (file_size fs path); reflexivity.
  - intros Hnot. apply find_file_None in Hnot. now rewrite Hnot.
Qed.

Lemma remove_unknown_is_silent_example :
  r_sent (remove two_files_state two_files_fs sample_client del_missing) = []
  /\ remove two_files_state two_files_fs sample_client del_missing
     = returns two_files_state two_files_fs [].
Proof.
  destruct (remove_unknown_is_silent two_files_state two_files_fs sample_client
              del_missing ltac:(discriminate)) as [Hsent Hsame].
  split; [exact Hsent | ]. apply Hsame. not_listed.
Defined.

(** * Fetch leaves the server as it was *)

Section fetch_facts.
Context `{connection_h}.

Lemma send_file_frame options st fs client request path env :
  x_state (send_file options st fs client request path env) = st
  /\ x_ops (send_file options st fs client request path env) = [].
Proof.
  unfold send_file.
  repeat match goal with
         | |- context [match ?e with _ => _ end] => destruct e
         end; simpl; split; reflexivity.
Qed.

(** C8.  Whatever a fetch request leads to, the handler returns the state
    ([available_space], [negative_space] and the catalog among it) and the
    file system unchanged; the child it may fork runs [send_file], which for
    every behaviour of the client and of the system calls ends with its copy
    of the state unchanged and without any change to the file system; and
    when the name is not in the catalog the handler calls [error_message]
    for the requester. *)
Theorem fetch_changes_nothing options st fs client request fork_ok :
  r_state (fetch options st fs client request fork_ok) = st
  /\ r_fs (fetch options st fs client request fork_ok) = fs
  /\ (forall child,
        r_child (fetch options st fs client request fork_ok) = Some child ->
        exists path,
          child = send_file_job st client request path
          /\ forall fs' env,
               x_state (send_file options st fs' client request path env) = st
               /\ x_ops (send_file options st fs' client request path env) = [])
  /\ (data request ∉ filename <$> files st ->
      fetch options st fs client request fork_ok
      = returns st fs [error_message client "Invalid file name."]).
Proof.
  unfold fetch.
  destruct (find_file (data request) (files st)) as [[it path]|] eqn:Hfind.
  - destruct fork_ok; simpl; (split; [reflexivity | split; [reflexivity | split]]).
    + intros child [= <-]. exists path. split; [reflexivity | ].
      intros fs' env. apply send_file_frame.
    + intros Hnot. apply find_file_None in Hnot. congruence.
    + intros child [=].
    + intros Hnot. apply find_file_None in Hnot. congruence.
  - simpl. split; [reflexivity | split; [reflexivity | split]].
    + intros child [=].
    + reflexivity.
Qed.

(** * Command names and routing *)


Lemma nul_from_spec i s :
  nul_from i s = true
  <-> forall j a, (i <= j)%nat -> String.get j s = Some a -> a = NUL.
Proof.
  revert i. induction s as [|b s IH]; intros i; simpl.
  - split; [intros _ j a _ Hget; destruct j; discriminate | reflexivity].
  - destruct i as [|i].
    + rewrite andb_true_iff, Ascii.eqb_eq, IH. split.
      * intros [-> Hrest] [|j] a _ Hget; simpl in Hget.
        -- now injection Hget as <-.
        -- apply (Hrest j); [lia | exact Hget].
      * intros Hall. split; [now apply (Hall O) | ].
        intros j a _ Hget. apply (Hall (S j)); [lia | exact Hget].
    + rewrite IH. split.
      * intros Hrest [|j] a Hle Hget; [lia | ].
        simpl in Hget. apply (Hrest j); [lia | exact Hget].
      * intros Hall j a Hle Hget. apply (Hall (S j)); [lia | exact Hget].
Qed.

Lemma command_equal_spec request command :
  command_equal request command = true
  <-> substring 0 (String.length command) (cmd request) = command
      /\ forall j a, (String.length command <= j)%nat ->
           String.get j (cmd request) = Some a -> a = NUL.
Proof.
  unfold command_equal. rewrite <- nul_from_spec.
  destruct (nul_from (String.length command) (cmd request)).
  - rewrite String.eqb_eq. tauto.
  - split; [discriminate | intros [_ ?]; discriminate].
Qed.

(** A command field that goes on after a known name with a character other
    than NUL is none of the known commands. *)
Lemma command_equal_extended request name x rest command :
  name ∈ command_names -> command ∈ command_names ->
  x <> NUL -> cmd request = name +:+ String x rest ->
  command_equal request command = false.
Proof.
  intros Hname Hcommand Hx Hcmd. apply Ascii.eqb_neq in Hx.
  unfold command_equal. rewrite Hcmd.
  unfold command_names in *.
  repeat (apply elem_of_cons in Hname as [-> | Hname]);
    [ .. | inversion Hname];
    (repeat (apply elem_of_cons in Hcommand as [-> | Hcommand]);
       [ .. | inversion Hcommand]);
    rewrite !append_cons, append_nil; cbn; rewrite ?Hx; cbn;
    try reflexivity;
    match goal with
    | |- context [nul_from ?i rest] => destruct (nul_from i rest); reflexivity
    end.
Qed.

(** C10.  [command_equal] accepts a command field for a name only when the
    field starts with the name and every character after it is NUL; a
    datagram whose command field continues a known name with a character
    other than NUL (as in "HELLOX") reaches no handler: the loop calls
    [error_message] with "Invalid cmd." and changes nothing. *)
Theorem command_field_must_be_nul_padded :
  (forall request command,
     command_equal request command = true ->
     substring 0 (String.length command) (cmd request) = command
     /\ forall j a, (String.length command <= j)%nat ->
          String.get j (cmd request) = Some a -> a = NUL)
  /\ (forall options st fs client buffer rcv_len fork_ok name x rest,
        name ∈ command_names -> x <> NUL ->
        0 <= rcv_len -> SIMPL_CMD_min_size <= rcv_len ->
        cmd (make_SIMPL_CMD buffer rcv_len) = name +:+ String x rest ->
        read_requests options st fs client buffer rcv_len fork_ok
        = returns st fs [error_message client "Invalid cmd."]).
Proof.
  split.
  - intros request command. apply command_equal_spec.
  - intros options st fs client buffer rcv_len fork_ok name x rest
      Hname Hx Hlen Hmin Hcmd.
    unfold read_requests, message_too_short.
    destruct (Z.ltb_spec rcv_len 0); [lia | ].
    destruct (Z.ltb_spec rcv_len SIMPL_CMD_min_size); [lia | ].
    rewrite !(command_equal_extended _ name x rest) by
      (first [exact Hname | exact Hx | exact Hcmd
             | unfold command_names; repeat constructor]).
    reflexivity.
Qed.

End fetch_facts.

(** A fetch of a name the catalog does not have changes nothing and calls
    [error_message]. *)
Lemma fetch_changes_nothing_example :
  fetch sample_options two_files_state two_files_fs sample_client get_missing
    true
  = returns two_files_state two_files_fs
      [error_message sample_client "Invalid file name."].
Proof.
  destruct (fetch_changes_nothing (H := sample_connection) sample_options
              two_files_state two_files_fs sample_client get_missing true)
    as (_ & _ & _ & Hmissing).
  apply Hmissing. not_listed.
Defined.

(** The datagram "HELLOX" is answered with "Invalid cmd.", not by
    [discover]. *)
Lemma command_field_must_be_nul_padded_hellox :
  read_requests (H := sample_connection) sample_options two_files_state
    two_files_fs sample_client hellox_datagram 18 true
  = returns two_files_state two_files_fs
      [error_message sample_client "Invalid cmd."].
Proof.
  apply (proj2 (command_field_must_be_nul_padded (H := sample_connection))
           sample_options two_files_state two_files_fs sample_client
           hellox_datagram 18 true "HELLO"%string "X"%char
           (String NUL (String NUL (String NUL (String NUL ""))))).
  - unfold command_names. repeat constructor.
  - discriminate.
  - lia.
  - simpl. lia.
  - vm_compute. reflexivity.
Defined.

(** * Search replies *)

Section search_facts.
Context `{connection_h}.

Lemma append_assoc (s t u : string) : (s +:+ t) +:+ u = s +:+ t +:+ u.
Proof. induction s as [|a s IH]; [reflexivity | ]. rewrite !append_cons. now rewrite IH. Qed.

Lemma join_lines_cons x y l :
  join_lines (x :: y :: l) = x +:+ newline +:+ join_lines (y :: l).
Proof. reflexivity. Qed.

(** One packet takes names from the front of the list and keeps them
    joined; what it leaves is no longer than what it was given. *)
Lemma prepare_packet_spec results : forall data current,
  join_lines (fst (prepare_packet data current results)
                :: snd (prepare_packet data current results))
  = join_lines (data :: results)
  /\ (length (snd (prepare_packet data current results)) <= length results)%nat.
Proof.
  induction results as [|next rest IH]; intros data current; simpl.
  - split; [reflexivity | lia].
  - destruct (str_size data + str_size current + 1 <? MAX_SIMPL_DATA_LEN).
    + destruct (IH (data +:+ newline +:+ next) next) as [Hjoin Hlen].
      split; [ | lia]. rewrite Hjoin. destruct rest as [|y rest].
      * reflexivity.
      * rewrite !join_lines_cons. now rewrite !append_assoc.
    + split; [reflexivity | simpl; lia].
Qed.

(** With fuel for every name, the packets sent carry, joined, exactly the
    names found, in their order. *)
Lemma send_packets_join sock client seq fuel : forall results,
  (length results <= fuel)%nat ->
  join_lines (payload_of <$> send_packets fuel sock client seq results)
  = join_lines results
  /\ (results <> [] -> send_packets fuel sock client seq results <> []).
Proof.
  induction fuel as [|fuel IH]; intros results Hfuel.
  - destruct results; [ | simpl in Hfuel; lia]. split; [reflexivity | congruence].
  - destruct results as [|current rest]; [split; [reflexivity | congruence] | ].
    simpl in Hfuel. simpl.
    destruct (prepare_packet_spec rest current current) as [Hjoin Hlen].
    destruct (prepare_packet current current rest) as [data rest'] eqn:Hp.
    simpl in Hjoin, Hlen. split; [ | discriminate].
    destruct (IH rest' ltac:(lia)) as [Hrest Hnonempty].
    rewrite fmap_cons. simpl payload_of. rewrite <- Hjoin.
    destruct rest' as [|y rest'].
    + destruct fuel; reflexivity.
    + specialize (Hnonempty ltac:(discriminate)).
      destruct (send_packets fuel sock client seq (y :: rest')) as [|m ms] eqn:Hs;
        [congruence | ].
      rewrite fmap_cons in *. rewrite !join_lines_cons. now rewrite Hrest.
Qed.

(** More fuel than names changes nothing: the loop has ended. *)
Lemma send_packets_fuel sock client seq fuel : forall fuel' results,
  (length results <= fuel)%nat -> (length results <= fuel')%nat ->
  send_packets fuel sock client seq results
  = send_packets fuel' sock client seq results.
Proof.
  induction fuel as [|fuel IH]; intros fuel' results Hfuel Hfuel'.
  - destruct results; [ | simpl in Hfuel; lia]. now destruct fuel'.
  - destruct results as [|current rest]; [now destruct fuel' | ].
    destruct fuel' as [|fuel']; simpl in Hfuel, Hfuel'; [lia | ]. simpl.
    pose proof (prepare_packet_spec rest current current) as [_ Hlen].
    destruct (prepare_packet current current rest) as [data rest'].
    simpl in Hlen. f_equal. apply IH; lia.
Qed.

(** What holds of the datagrams of a search: joined by newlines, their
    payloads are the names found, in catalog order. *)
Lemma list_files_join st fs client request :
  join_lines (payload_of <$> r_sent (list_files st fs client request))
  = join_lines (search_results (data request) (files st)).
Proof. unfold list_files. simpl. now apply send_packets_join. Qed.

Lemma contains_empty name : contains "" name = true.
Proof. unfold contains. destruct name; reflexivity. Qed.

Lemma length_repeat_char c n : String.length (repeat_char c n) = n.
Proof.
  unfold repeat_char. induction n as [|n IH]; simpl; [reflexivity | now rewrite IH].
Qed.

Lemma contains_char_repeat c d n :
  d <> c -> contains_char c (repeat_char d n) = false.
Proof.
  intros Hne. apply Ascii.eqb_neq in Hne. unfold repeat_char.
  induction n as [|n IH]; simpl; [reflexivity | now rewrite Hne].
Qed.

(** The names the two-name catalog gives to a search for everything. *)
Lemma long_second_name_results :
  search_results "" (files long_second_name_state)
  = ["aaaaaaa"%string; long_second_name].
Proof.
  unfold long_second_name_state. simpl files. unfold search_results.
  rewrite !contains_empty.
  rewrite filename_join by (apply contains_char_repeat; discriminate).
  reflexivity.
Qed.

(** C3 (the code fails the bound).  Whenever [MAX_SIMPL_DATA_LEN] is more
    than 15, a catalog of two names, of 7 and of [MAX_SIMPL_DATA_LEN - 8]
    characters, each shorter than the limit, is answered with one datagram
    whose payload is [MAX_SIMPL_DATA_LEN] characters long: not strictly
    under the limit.  The test before a name is added measures the name
    added last, not the one about to be added. *)
Theorem list_packet_reaches_limit fs client seq :
  15 < MAX_SIMPL_DATA_LEN ->
  (forall name, name ∈ search_results "" (files long_second_name_state) ->
     str_size name < MAX_SIMPL_DATA_LEN)
  /\ r_sent (list_files long_second_name_state fs client (list_all seq))
     = [send_simple_message 0 client "MY_LIST"
          ("aaaaaaa" +:+ newline +:+ long_second_name) seq]
  /\ str_size ("aaaaaaa" +:+ newline +:+ long_second_name) = MAX_SIMPL_DATA_LEN.
Proof.
  intros Hmax.
  assert (Hlong : str_size long_second_name = MAX_SIMPL_DATA_LEN - 8).
  { unfold str_size, long_second_name. rewrite length_repeat_char. lia. }
  split; [ | split].
  - intros name. rewrite long_second_name_results.
    intros [-> | Hin]%elem_of_cons.
    + change (str_size "aaaaaaa") with 7. lia.
    + apply list_elem_of_singleton in Hin as ->. lia.
  - unfold list_files. simpl data. rewrite long_second_name_results.
    simpl. change (str_size "aaaaaaa") with 7.
    destruct (Z.ltb_spec (7 + 7 + 1) MAX_SIMPL_DATA_LEN); [reflexivity | lia].
  - rewrite !str_size_append, Hlong.
    change (str_size "aaaaaaa") with 7. change (str_size newline) with 1. lia.
Qed.

(** C4 (as amended).  A search that matches no name is not answered at
    all: the loop that sends the datagrams is not entered, and nothing
    else changes. *)
Theorem empty_search_sends_nothing st fs client request :
  search_results (data request) (files st) = [] ->
  list_files st fs client request = returns st fs [].
Proof. intros Hnone. unfold list_files. now rewrite Hnone. Qed.

End search_facts.

Lemma list_packet_reaches_limit_sample :
  (forall name,
     name ∈ search_results "" (files (long_second_name_state (H := sample_connection))) ->
     str_size name < 65489)
  /\ r_sent (list_files (H := sample_connection)
               (long_second_name_state (H := sample_connection))
               two_files_fs sample_client (list_all 11))
     = [send_simple_message 0 sample_client "MY_LIST"
          ("aaaaaaa" +:+ newline +:+ long_second_name (H := sample_connection)) 11]
  /\ str_size ("aaaaaaa" +:+ newline +:+ long_second_name (H := sample_connection))
     = 65489.
Proof.
  apply (list_packet_reaches_limit (H := sample_connection) two_files_fs
           sample_client 11).
  simpl. lia.
Defined.

Lemma empty_search_sends_nothing_example :
  list_files (H := sample_connection) two_files_state two_files_fs
    sample_client list_missing
  = returns two_files_state two_files_fs [].
Proof.
  apply (empty_search_sends_nothing (H := sample_connection) two_files_state
           two_files_fs sample_client list_missing).
  reflexivity.
Defined.

(** C4 as the spec has it fails: no name of the catalog contains "zzz" and
    the search is answered by no datagram, not by one empty one. *)
Lemma empty_search_not_one_reply :
  search_results (data list_missing) (files two_files_state) = []
  /\ ~ one_empty_reply
        (r_sent (list_files (H := sample_connection) two_files_state
                   two_files_fs sample_client list_missing)).
Proof.
  split; [reflexivity | ].
  intros (sock & client & seq & Hsent). discriminate Hsent.
Qed.

(** * The receiving loop *)

(** Bytes put in the file by a list of writes. *)
Lemma bytes_written_writes (calls : list write_call) :
  bytes_written (op_write ∘ written <$> calls)
  = foldr (fun c acc => Z.of_nat (length (written c)) + acc) 0 calls.
Proof.
  induction calls as [|c calls IH]; [reflexivity | ].
  rewrite fmap_cons. cbn [bytes_written compose foldr]. now rewrite IH.
Qed.

Lemma bytes_written_call c (calls : list write_call) :
  bytes_written (op_write ∘ written <$> c :: calls)
  = Z.of_nat (length (written c)) + bytes_written (op_write ∘ written <$> calls).
Proof. reflexivity. Qed.

Lemma bytes_written_app ops ops' :
  bytes_written (ops ++ ops') = bytes_written ops + bytes_written ops'.
Proof.
  induction ops as [|[p|b|p] ops IH]; simpl; rewrite ?IH; lia.
Qed.

Lemma bytes_written_nonneg ops : 0 <= bytes_written ops.
Proof. induction ops as [|[p|b|p] ops IH]; simpl; lia. Qed.

Lemma write_len_of_bounds w n : 0 <= n -> -1 <= write_len_of w n <= n.
Proof. intros Hn. destruct w; simpl; lia. Qed.

(** The loop never runs once [error_occurred] is set. *)
Lemma receive_loop_after_error reads ws cur remaining :
  receive_loop reads ws cur remaining true
  = ([], remaining, read_len_of cur, true).
Proof.
  destruct reads; simpl; now rewrite andb_false_r.
Qed.

(** What the loop guarantees: it writes no more than [remaining] bytes, and
    if it ends without [error_occurred] then every write was complete and
    [remaining] went down by exactly the bytes written. *)
Lemma receive_loop_spec reads : forall ws cur remaining err,
  let '(calls, remaining', len', err') :=
    receive_loop reads ws cur remaining err in
  bytes_written (op_write ∘ written <$> calls) <= Z.max 0 remaining
  /\ (err' = false ->
      err = false
      /\ remaining' = remaining - bytes_written (op_write ∘ written <$> calls)
      /\ Forall (fun c => write_len c = to_write_len c) calls).
Proof.
  induction reads as [|next reads IH]; intros ws cur remaining err.
  - simpl.
    destruct ((0 <? remaining) && (0 <? read_len_of cur) && negb err) eqn:Hcond.
    + apply andb_true_iff in Hcond as [[Hrem Hlen]%andb_true_iff Herr].
      apply Z.ltb_lt in Hrem, Hlen. apply negb_true_iff in Herr as ->.
      set (n := Z.min (read_len_of cur) remaining).
      pose proof (write_len_of_bounds (hd write_all ws) n ltac:(lia)) as Hw.
      simpl. rewrite length_take.
      split; [lia | ].
      destruct (Z.eqb_spec (write_len_of (hd write_all ws) n) n) as [Heq|Hne];
        [ | discriminate].
      intros _. split; [reflexivity | ]. split.
      * rewrite Heq. destruct cur as [chunk|]; simpl in *; lia.
      * constructor; [exact Heq | constructor].
    + simpl. split; [lia | ]. intros ->. split; [reflexivity | ].
      split; [lia | constructor].
  - simpl.
    destruct ((0 <? remaining) && (0 <? read_len_of cur) && negb err) eqn:Hcond.
    + apply andb_true_iff in Hcond as [[Hrem Hlen]%andb_true_iff Herr].
      apply Z.ltb_lt in Hrem, Hlen. apply negb_true_iff in Herr as ->.
      set (n := Z.min (read_len_of cur) remaining).
      pose proof (write_len_of_bounds (hd write_all ws) n ltac:(lia)) as Hw.
      destruct (Z.eqb_spec (write_len_of (hd write_all ws) n) n) as [Heq|Hne].
      * specialize (IH (tl ws) next (remaining - write_len_of (hd write_all ws) n) false).
        destruct (receive_loop reads (tl ws) next
                    (remaining - write_len_of (hd write_all ws) n) false)
          as [[[more remaining'] len'] err'].
        destruct IH as [Hbound Hok].
        rewrite bytes_written_call. cbn [written]. rewrite length_take.
        split; [lia | ].
        intros Herr'. destruct (Hok Herr') as (_ & -> & Hall).
        split; [reflexivity | ]. split.
        -- rewrite Heq. destruct cur as [chunk|]; simpl in *; lia.
        -- constructor; [exact Heq | exact Hall].
      * rewrite receive_loop_after_error.
        rewrite bytes_written_call. cbn [written]. rewrite length_take.
        simpl. split; [lia | discriminate].
    + simpl. split; [lia | ]. intros ->. split; [reflexivity | ].
      split; [lia | constructor].
Qed.

(** After its last call, an [unlink], the name is gone. *)
Lemma run_ops_unlink_last ops path : forall fd off fs,
  disk (run_ops (ops ++ [op_unlink path]) fd off fs) !! path = None.
Proof.
  induction ops as [|op ops IH]; intros fd off fs; simpl.
  - apply lookup_delete_eq.
  - destruct (exec_op op fd off fs) as [[fd' off'] fs']. apply IH.
Qed.

Lemma to_ssize_nonneg z : u64 z -> 0 <= to_ssize z -> to_ssize z = z.
Proof.
  intros Hz. unfold to_ssize. rewrite (wrap64_small z Hz).
  destruct (Z.ltb_spec z (2 ^ 63)); [reflexivity | ]. unfold u64 in Hz. lia.
Qed.

Lemma to_ssize_le z : u64 z -> to_ssize z <= z.
Proof.
  intros Hz. unfold to_ssize. rewrite (wrap64_small z Hz).
  destruct (Z.ltb_spec z (2 ^ 63)); lia.
Qed.

(** The exits of [receive_file] before the receiving loop. *)
Ltac never_started :=
  split; [simpl; lia | ];
  split; [intros (? & ? & ? & ?); congruence | ];
  split; [intros (? & Hin & _); inversion Hin | ];
  split; [discriminate | ];
  repeat split.

(** What holds of a child that receives an upload declared as [S] bytes:
    the writes on the backing file put at most [S] bytes in it, whatever
    the client sends; once the receiving loop is reached, a transfer that
    wrote fewer than [S] bytes (the stream ended early) is flagged
    failed, and so is one with a short write; a transfer flagged failed that
    leaves through [exit(0)] has unlinked the backing file; and the child's
    [available_space], [negative_space] and catalog are those it was forked
    with: nothing is given back. *)
Lemma receive_file_keeps_to_declared_size options st client request env :
  u64 (param request) ->
  bytes_written (x_ops (receive_file options st client request env))
    <= param request
  /\ (transfer_started env ->
      bytes_written (x_ops (receive_file options st client request env))
        < param request ->
      x_error (receive_file options st client request env) = true)
  /\ ((exists c, c ∈ x_writes (receive_file options st client request env)
                 /\ write_len c <> to_write_len c) ->
      x_error (receive_file options st client request env) = true)
  /\ (x_error (receive_file options st client request env) = true ->
      x_thrown (receive_file options st client request env) = None ->
      forall fs,
        disk (run_ops (x_ops (receive_file options st client request env))
                None O fs)
          !! (SHRD_FLDR options +:+ "/" +:+ cmplx_data request) = None)
  /\ available_space (x_state (receive_file options st client request env))
     = available_space st
  /\ negative_space (x_state (receive_file options st client request env))
     = negative_space st
  /\ files (x_state (receive_file options st client request env)) = files st.
Proof.
  intros Hparam. unfold receive_file, transfer_started.
  assert (H0 : 0 <= param request) by (unfold u64 in Hparam; lia).
  destruct (tcp_port env) as [port|]; simpl; [ | never_started].
  destruct (select_ready env); simpl; [ | never_started].
  destruct (accept_ok env); simpl; [ | never_started].
  destruct (open_ok env); simpl; [ | never_started].
  pose proof (receive_loop_spec (tl (reads env)) (writes env)
                match reads env with r :: _ => r | [] => read_bytes [] end
                (to_ssize (param request)) false) as Hloop.
  destruct (receive_loop (tl (reads env)) (writes env)
              match reads env with r :: _ => r | [] => read_bytes [] end
              (to_ssize (param request)) false)
    as [[[calls remaining] read_len] err].
  destruct Hloop as [Hbound Hok].
  pose proof (to_ssize_le _ Hparam) as Hle.
  set (flag := if (read_len <? 0) || negb (remaining =? 0) then true else err).
  assert (Hflag : flag = false ->
            bytes_written (op_write ∘ written <$> calls) = param request
            /\ Forall (fun c => write_len c = to_write_len c) calls).
  { subst flag. destruct (Z.ltb_spec read_len 0); [discriminate | ].
    destruct (Z.eqb_spec remaining 0) as [->|]; [ | discriminate]. simpl.
    intros Herr. destruct (Hok Herr) as (_ & Hrem & Hall). split; [ | exact Hall].
    pose proof (bytes_written_nonneg (op_write ∘ written <$> calls)).
    rewrite <- (to_ssize_nonneg _ Hparam); lia. }
  assert (Hshort : (exists c, c ∈ calls /\ write_len c <> to_write_len c) ->
            flag = true).
  { intros (c & Hin & Hne). destruct flag; [reflexivity | ].
    destruct (Hflag eq_refl) as [_ Hall].
    rewrite Forall_forall in Hall. now apply Hall in Hin. }
  assert (Hearly : bytes_written (op_write ∘ written <$> calls) < param request ->
            flag = true).
  { intros Hlt. destruct flag; [reflexivity | ].
    destruct (Hflag eq_refl) as [Heq _]. lia. }
  destruct (close_ok env); simpl.
  - rewrite bytes_written_app.
    assert (bytes_written (if flag then [op_unlink
               (SHRD_FLDR options +:+ "/" +:+ cmplx_data request)] else []) = 0)
      as -> by (destruct flag; reflexivity).
    rewrite Z.add_0_r.
    split; [lia | ]. split; [intros _; exact Hearly | ].
    split; [exact Hshort | ]. split; [ | repeat split; reflexivity].
    intros -> _ fs.
    apply (run_ops_unlink_last (op_open _ :: (op_write ∘ written <$> calls))
             _ None O fs).
  - split; [lia | ]. split; [intros _; exact Hearly | ].
    split; [exact Hshort | ]. split; [ | repeat split; reflexivity].
    intros _ [=].
Qed.

(** A client sends eight bytes for an upload declared as five: five reach
    the file and the transfer is not flagged.  A client that sends three is
    flagged and the file is unlinked. *)
Lemma receive_file_keeps_to_declared_size_examples :
  bytes_written (x_ops (receive_file sample_options two_files_state
                          sample_client add_five eager_client)) = 5
  /\ x_error (receive_file sample_options two_files_state sample_client
                add_five eager_client) = false
  /\ x_error (receive_file sample_options two_files_state sample_client
                add_five short_client) = true
  /\ disk (run_ops (x_ops (receive_file sample_options two_files_state
                             sample_client add_five short_client))
             None O two_files_fs) !! "shared/five"%string = None.
Proof.
  assert (Hfive : u64 (param add_five))
    by (vm_compute; split; [discriminate | reflexivity]).
  destruct (receive_file_keeps_to_declared_size sample_options two_files_state
              sample_client add_five short_client Hfive)
    as (_ & Hearly & _ & Hgone & _).
  assert (Hflag : x_error (receive_file sample_options two_files_state
                             sample_client add_five short_client) = true).
  { apply Hearly.
    - repeat split; try reflexivity. discriminate.
    - vm_compute. reflexivity. }
  split; [vm_compute; reflexivity | ].
  split; [vm_compute; reflexivity | ].
  split; [exact Hflag | ].
  apply (Hgone Hflag eq_refl two_files_fs).
Defined.

Lemma length_pwrite off bytes old :
  length (pwrite off bytes old) = max (length old) (off + length bytes).
Proof.
  unfold pwrite.
  rewrite !length_app, length_take, length_app, length_replicate, length_drop.
  lia.
Qed.

(** Writes in a row through a descriptor whose name still leads to its
    inode: the bytes follow each other from the offset on, what the file
    held beyond them stays, the other files are not touched. *)
Lemma run_writes path i chunks : forall off fs c,
  disk fs !! path = Some {| ino := i; content := c |} ->
  (off <= length c)%nat ->
  disk (run_ops (op_write <$> chunks) (Some (path, i)) off fs) !! path
  = Some {| ino := i;
            content := take off c ++ concat chunks
                         ++ drop (off + length (concat chunks)) c |}
  /\ forall q, q <> path ->
       disk (run_ops (op_write <$> chunks) (Some (path, i)) off fs) !! q
       = disk fs !! q.
Proof.
  induction chunks as [|b chunks IH]; intros off fs c Hf Hoff.
  - simpl. rewrite Nat.add_0_r, take_drop. now split.
  - rewrite fmap_cons. simpl run_ops. unfold write_at. rewrite Hf. simpl ino.
    destruct (decide (i = i)) as [_|Hne]; [ | contradiction].
    simpl content.
    assert (Hc : pwrite off b c = (take off c ++ b) ++ drop (off + length b) c).
    { unfold pwrite. rewrite take_app_le by exact Hoff. now rewrite <- app_assoc. }
    assert (Hlen : length (take off c ++ b) = (off + length b)%nat).
    { rewrite length_app, length_take. lia. }
    edestruct (IH (off + length b)%nat
                 {| disk := <[path := {| ino := i; content := pwrite off b c |}]> (disk fs);
                    next_ino := next_ino fs |} (pwrite off b c))
      as [Hfile Hothers].
    { simpl. apply lookup_insert_eq. }
    { rewrite length_pwrite. lia. }
    split.
    + rewrite Hfile. do 2 f_equal. rewrite Hc.
      rewrite take_app_length' by (now rewrite Hlen).
      rewrite drop_app_add' by (now rewrite Hlen).
      rewrite drop_drop. simpl concat. rewrite length_app.
      rewrite <- !app_assoc. do 2 f_equal. now rewrite Nat.add_assoc.
    + intros q Hq. rewrite (Hothers q Hq). simpl. now apply lookup_insert_ne.
Qed.

(** C5 (the code fails the deletion).  An upload child that reached the
    receiving loop, wrote fewer bytes than declared, and whose [close] of
    the client's connection fails: the transfer is flagged failed, the
    child leaves through the exception "close", thrown before the test
    that leads to [unlink], it has made no [unlink], and the file it
    created stays in the folder with the bytes written so far.  The claim
    has the partially written file deleted on every failed transfer. *)
Theorem receive_file_failed_close_keeps_file options st client request env fs
    port :
  u64 (param request) ->
  tcp_port env = Some port -> select_ready env = true ->
  accept_ok env = true -> open_ok env = true -> close_ok env = false ->
  disk fs !! (SHRD_FLDR options +:+ "/" +:+ cmplx_data request) = None ->
  bytes_written (x_ops (receive_file options st client request env))
    < param request ->
  x_error (receive_file options st client request env) = true
  /\ x_thrown (receive_file options st client request env) = Some "close"%string
  /\ (forall path,
        op_unlink path ∉ x_ops (receive_file options st client request env))
  /\ exists i,
       disk (run_ops (x_ops (receive_file options st client request env))
               None O fs)
         !! (SHRD_FLDR options +:+ "/" +:+ cmplx_data request)
       = Some {| ino := i;
                 content :=
                   concat (written <$>
                             x_writes (receive_file options st client request
                                         env)) |}.
Proof.
  intros Hparam Hport Hselect Haccept Hopen Hclose Habsent Hshort.
  split.
  { destruct (receive_file_keeps_to_declared_size options st client request env
                Hparam) as (_ & Hearly & _).
    apply Hearly; [ | exact Hshort].
    unfold transfer_started. rewrite Hport. repeat split; try assumption.
    discriminate. }
  clear Hshort. unfold receive_file.
  rewrite Hport, Hselect, Haccept, Hopen, Hclose. simpl.
  destruct (receive_loop _ _ _ _ _) as [[[calls remaining] len] err]. simpl.
  split; [reflexivity | ]. split.
  - intros path [Hin | Hin]%elem_of_cons; [discriminate Hin | ].
    apply list_elem_of_fmap in Hin as (c & Hc & _). discriminate Hc.
  - unfold open_create. rewrite Habsent.
    destruct (run_writes (SHRD_FLDR options +:+ "/" +:+ cmplx_data request)
                (next_ino fs) (written <$> calls) O
                {| disk := <[SHRD_FLDR options +:+ "/" +:+ cmplx_data request
                             := {| ino := next_ino fs; content := [] |}]> (disk fs);
                   next_ino := S (next_ino fs) |} [])
      as [Hfile _].
    { simpl. apply lookup_insert_eq. }
    { simpl. lia. }
    exists (next_ino fs). rewrite list_fmap_compose, Hfile. simpl.
    now rewrite drop_nil, app_nil_r.
Qed.

(** The upload of "five" declared as five bytes: the client sends three
    bytes and goes, and the [close] of its connection fails.  The transfer
    is flagged failed and the three bytes stay in the folder as
    "shared/five". *)
Lemma receive_file_failed_close_keeps_file_five :
  x_error (receive_file sample_options two_files_state sample_client add_five
             short_client_failing_close) = true
  /\ x_thrown (receive_file sample_options two_files_state sample_client
                 add_five short_client_failing_close) = Some "close"%string
  /\ disk (run_ops (x_ops (receive_file sample_options two_files_state
                             sample_client add_five short_client_failing_close))
             None O two_files_fs) !! "shared/five"%string
     = Some {| ino := 2; content := [x01; x02; x03] |}.
Proof.
  destruct (receive_file_failed_close_keeps_file sample_options two_files_state
              sample_client add_five short_client_failing_close two_files_fs
              50000
              ltac:(vm_compute; split; [discriminate | reflexivity])
              ltac:(reflexivity) ltac:(reflexivity) ltac:(reflexivity)
              ltac:(reflexivity) ltac:(reflexivity)
              ltac:(vm_compute; reflexivity) ltac:(vm_compute; reflexivity))
    as (Herror & Hthrown & _ & _).
  split; [exact Herror | ]. split; [exact Hthrown | ].
  vm_compute. reflexivity.
Defined.

(** * The ledger invariant *)

(** ** Sizes of disks and of pending writes *)

Lemma add_size_comm (d : gmap string file) :
  forall (j1 j2 : string) (z1 z2 : file) (y : Z),
    j1 <> j2 -> d !! j1 = Some z1 -> d !! j2 = Some z2 ->
    add_size j1 z1 (add_size j2 z2 y) = add_size j2 z2 (add_size j1 z1 y).
Proof. intros. unfold add_size. lia. Qed.

Lemma disk_size_empty : disk_size ∅ = 0.
Proof. apply map_fold_empty. Qed.

Lemma disk_size_delete d path f :
  d !! path = Some f ->
  disk_size d = Z.of_nat (length (content f)) + disk_size (delete path d).
Proof.
  intros Hf. unfold disk_size.
  apply (map_fold_delete_L add_size 0 path f d); [apply add_size_comm | exact Hf].
Qed.

Lemma disk_size_insert_fresh d path f :
  d !! path = None ->
  disk_size (<[path := f]> d) = Z.of_nat (length (content f)) + disk_size d.
Proof.
  intros Hnone. unfold disk_size.
  apply (map_fold_insert_L add_size 0 path f d); [apply add_size_comm | exact Hnone].
Qed.

Lemma disk_size_insert d path f old :
  d !! path = Some old ->
  disk_size (<[path := f]> d)
  = Z.of_nat (length (content f)) + disk_size d
    - Z.of_nat (length (content old)).
Proof.
  intros Hold. rewrite <- insert_delete_eq.
  rewrite disk_size_insert_fresh by apply lookup_delete_eq.
  rewrite (disk_size_delete d path old Hold). lia.
Qed.

Lemma disk_size_nonneg d : 0 <= disk_size d.
Proof.
  unfold disk_size.
  apply (map_fold_weak_ind (fun r _ => 0 <= r) add_size 0).
  - lia.
  - intros path f m r _ Hr. unfold add_size. lia.
Qed.

Lemma disk_size_lookup d path f :
  d !! path = Some f -> Z.of_nat (length (content f)) <= disk_size d.
Proof.
  intros Hf. rewrite (disk_size_delete d path f Hf).
  pose proof (disk_size_nonneg (delete path d)). lia.
Qed.

Lemma disk_size_unlink d path : disk_size (delete path d) <= disk_size d.
Proof.
  destruct (d !! path) as [f|] eqn:Hf.
  - rewrite (disk_size_delete d path f Hf). lia.
  - rewrite delete_id by exact Hf. lia.
Qed.

Lemma pending_bytes_app l k :
  pending_bytes (l ++ k) = pending_bytes l + pending_bytes k.
Proof. induction l as [|t l IH]; simpl; [reflexivity | rewrite IH; lia]. Qed.

Lemma pending_bytes_nonneg tasks : 0 <= pending_bytes tasks.
Proof.
  induction tasks as [|t l IH]; simpl; [lia | ].
  pose proof (bytes_written_nonneg (t_ops t)). lia.
Qed.

Lemma pending_bytes_insert tasks i t t' :
  tasks !! i = Some t ->
  pending_bytes (<[i := t']> tasks)
  = pending_bytes tasks - bytes_written (t_ops t) + bytes_written (t_ops t').
Proof.
  revert i. induction tasks as [|u tasks IH]; intros [|i]; simpl; try discriminate.
  - intros [= ->]. lia.
  - intros Hi. rewrite (IH i Hi). lia.
Qed.


(** A descriptor stays in order when files only go away. *)
Lemma fd_ok_mono fs fs' t :
  fd_ok fs t ->
  (next_ino fs <= next_ino fs')%nat ->
  (forall q f, disk fs' !! q = Some f -> disk fs !! q = Some f) ->
  fd_ok fs' t.
Proof.
  unfold fd_ok. destruct (t_fd t) as [[path i]|]; [ | trivial].
  intros [Hi Hoff] Hnext Hsub. split; [lia | ].
  intros f Hf. apply Hoff. now apply Hsub.
Qed.

(** ** Steps of the serving process *)

Section invariant.
Context `{connection_h} (options : server_options).

(** A child starts without a descriptor. *)
Lemma new_tasks_fd_ok fs fs' child env :
  Forall (fd_ok fs') (new_tasks options fs child env).
Proof. destruct child; simpl; repeat constructor. Qed.

(** A turn that leaves state and files alone and forks, if anything, a
    child without file-system calls keeps the invariant. *)
Lemma quiet_world_ok quota w r env :
  world_ok quota w ->
  r_state r = w_state w -> r_fs r = w_fs w ->
  (forall j, r_child r = Some j -> x_ops (run_job options (w_fs w) j env) = []) ->
  world_ok quota (after_request options w r env).
Proof.
  intros [Hino Hoff Hav Hneg Hexcl Hdebt Htotal] Hst Hfs Hchild.
  assert (Hnew : pending_bytes (new_tasks options (w_fs w) (r_child r) env) = 0).
  { destruct (r_child r) as [j|]; simpl; [ | reflexivity].
    now rewrite (Hchild j eq_refl). }
  split; simpl; rewrite ?Hst, ?Hfs, ?pending_bytes_app, ?Hnew; try assumption.
  - apply Forall_app. split; [exact Hoff | apply new_tasks_fd_ok].
  - lia.
Qed.

(** [remove] keeps the invariant: what it gives back is the size of the
    file it deletes. *)
Lemma remove_world_ok quota w client request env :
  world_ok quota w ->
  world_ok quota
    (after_request options w (remove (w_state w) (w_fs w) client request) env).
Proof.
  intros Hw. unfold remove.
  assert (Hquiet : forall sent thrown,
            world_ok quota
              (after_request options w
                 {| r_state := w_state w; r_fs := w_fs w; r_sent := sent;
                    r_child := None; r_thrown := thrown |} env)).
  { intros sent thrown.
    apply quiet_world_ok; [exact Hw | reflexivity | reflexivity | intros j [=]]. }
  destruct (check_data_not_empty request client) as [[|] sent]; [ | apply Hquiet].
  destruct (find_file (data request) (files (w_state w))) as [[it path]|];
    [ | apply Hquiet].
  unfold file_size.
  destruct (disk (w_fs w) !! path) as [f|] eqn:Hf; [ | apply Hquiet].
  destruct Hw as [Hino Hoff Hav Hneg Hexcl Hdebt Htotal].
  pose proof (disk_size_delete _ _ _ Hf) as Hdel.
  pose proof (disk_size_nonneg (delete path (disk (w_fs w)))) as Hrest.
  pose proof (pending_bytes_nonneg (w_tasks w)) as Hpending.
  set (s := Z.of_nat (length (content f))) in *.
  assert (Hs : u64 s) by (unfold u64 in *; lia).
  rewrite (wrap64_small s Hs).
  destruct (refund_spec s (w_state w) Hav Hneg Hs) as [Hn Ha].
  assert (Hfit : u64 (available_space (w_state w)
                      + (s - Z.min (negative_space (w_state w)) s))).
  { unfold u64 in *. lia. }
  rewrite (wrap64_small _ Hfit) in Ha.
  assert (Hsub : forall q g, disk (unlink path (w_fs w)) !! q = Some g ->
                   disk (w_fs w) !! q = Some g).
  { intros q g. simpl. rewrite lookup_delete_Some. tauto. }
  split; simpl; rewrite ?app_nil_r, ?Hn, ?Ha.
  - intros q g Hq. apply (Hsub q g) in Hq. now apply (Hino q g).
  - eapply Forall_impl; [exact Hoff | ]. intros u Hu.
    apply (fd_ok_mono (w_fs w)); [exact Hu | simpl; lia | exact Hsub].
  - exact Hfit.
  - unfold u64 in *. lia.
  - unfold u64 in *. lia.
  - unfold u64 in *. lia.
  - unfold u64 in *. lia.
Qed.

(** The writes of [receive_file] put no more than the declared size in the
    file. *)
Lemma receive_file_ops_bound st client request env :
  u64 (param request) ->
  bytes_written (x_ops (receive_file options st client request env))
  <= param request.
Proof.
  intros Hparam. unfold receive_file.
  assert (0 <= param request) by (unfold u64 in Hparam; lia).
  destruct (tcp_port env) as [port|]; [ | assumption].
  destruct (select_ready env); simpl; [ | assumption].
  destruct (accept_ok env); simpl; [ | assumption].
  destruct (open_ok env); simpl; [ | assumption].
  pose proof (receive_loop_spec (tl (reads env)) (writes env)
                match reads env with r :: _ => r | [] => read_bytes [] end
                (to_ssize (param request)) false) as Hloop.
  destruct (receive_loop (tl (reads env)) (writes env)
              match reads env with r :: _ => r | [] => read_bytes [] end
              (to_ssize (param request)) false)
    as [[[calls remaining] read_len] err].
  destruct Hloop as [Hbound _].
  pose proof (to_ssize_le _ Hparam) as Hle.
  destruct (close_ok env); simpl; [ | lia].
  rewrite bytes_written_app. case_match; simpl; lia.
Qed.

(** [upload] keeps the invariant: what an accepted upload takes from
    [available_space] covers what its child will write. *)
Lemma upload_world_ok quota w client request fork_ok env :
  u64 (param request) -> world_ok quota w ->
  world_ok quota
    (after_request options w
       (upload options (w_state w) (w_fs w) client request fork_ok) env).
Proof.
  intros Hparam Hw.
  destruct (decide (must_reject (w_state w) request)) as [Hrej|Hacc].
  { rewrite upload_rejected by exact Hrej.
    apply quiet_world_ok; [exact Hw | reflexivity | reflexivity | intros j [=]]. }
  destruct Hw as [Hino Hoff Hav Hneg Hexcl Hdebt Htotal].
  rewrite upload_accepted by exact Hacc.
  assert (Hle : param request <= available_space (w_state w))
    by (unfold must_reject in Hacc; lia).
  assert (Hwrap : wrap64 (available_space (w_state w) - param request)
                  = available_space (w_state w) - param request)
    by (apply wrap64_small; unfold u64 in *; lia).
  destruct fork_ok; (split; simpl; rewrite ?Hwrap, ?pending_bytes_app;
                     [exact Hino
                     | apply Forall_app; split; [exact Hoff | repeat constructor]
                     | unfold u64 in *; lia | exact Hneg | unfold u64 in *; lia
                     | exact Hdebt | ]).
  - match goal with
    | |- context [receive_file options ?st client request env] =>
        pose proof (receive_file_ops_bound st client request env Hparam)
    end.
    simpl. lia.
  - simpl. unfold u64 in *. lia.
Qed.

(** Every turn of the loop keeps the invariant. *)
Lemma read_requests_world_ok quota w client buffer rcv_len fork_ok env :
  world_ok quota w ->
  world_ok quota
    (after_request options w
       (read_requests options (w_state w) (w_fs w) client buffer rcv_len
          fork_ok) env).
Proof.
  intros Hw. unfold read_requests.
  assert (Hquiet : forall sent thrown,
            world_ok quota
              (after_request options w
                 {| r_state := w_state w; r_fs := w_fs w; r_sent := sent;
                    r_child := None; r_thrown := thrown |} env)).
  { intros sent thrown.
    apply quiet_world_ok; [exact Hw | reflexivity | reflexivity | intros j [=]]. }
  destruct (rcv_len <? 0); [apply Hquiet | ].
  destruct (message_too_short SIMPL_CMD_min_size rcv_len); [apply Hquiet | ].
  destruct (command_equal _ "HELLO").
  { unfold discover. destruct (check_data_empty _ client) as [[|] sent];
      apply Hquiet. }
  destruct (command_equal _ "DEL"); [now apply remove_world_ok | ].
  destruct (command_equal _ "LIST"); [apply Hquiet | ].
  destruct (command_equal _ "GET").
  { unfold fetch. destruct (find_file _ _) as [[it path]|]; [ | apply Hquiet].
    destruct fork_ok; [ | apply Hquiet].
    apply quiet_world_ok; [exact Hw | reflexivity | reflexivity | ].
    intros j [= <-]. simpl. apply send_file_frame. }
  destruct (command_equal _ "ADD"); [ | apply Hquiet].
  destruct (message_too_short CMPLX_CMD_min_size rcv_len); [apply Hquiet | ].
  apply upload_world_ok; [apply wrap64_u64 | exact Hw].
Qed.

End invariant.

(** ** Steps of the children *)

(** The [open] of a child. *)
Lemma open_world_ok quota w i t path rest :
  world_ok quota w ->
  w_tasks w !! i = Some t -> t_ops t = op_open path :: rest ->
  world_ok quota (after_op w i t (op_open path) rest).
Proof.
  intros [Hino Hoff Hav Hneg Hexcl Hdebt Htotal] Hi Hops.
  rewrite Forall_lookup in Hoff.
  unfold after_op, exec_op, open_create.
  destruct (disk (w_fs w) !! path) as [f|] eqn:Hf; simpl.
  - (* the file is there: it is opened as it is *)
    split; simpl; try assumption.
    + apply Forall_lookup. intros j u Hj.
      apply list_lookup_insert_Some in Hj as [(_ & <- & _)|(_ & Hj)];
        [ | exact (Hoff j u Hj)].
      unfold fd_ok. simpl. split; [exact (Hino path f Hf) | ]. intros g _ _. lia.
    + rewrite (pending_bytes_insert _ _ t _ Hi), Hops. simpl. lia.
  - (* the file is created, empty, in a new inode *)
    split; simpl; try assumption.
    + intros q g [(<- & <-)|(_ & Hq)]%lookup_insert_Some; simpl; [lia | ].
      specialize (Hino q g Hq). lia.
    + apply Forall_lookup. intros j u Hj.
      apply list_lookup_insert_Some in Hj as [(_ & <- & _)|(_ & Hj)].
      * unfold fd_ok. simpl. split; [lia | ]. intros g _ _. lia.
      * specialize (Hoff j u Hj). unfold fd_ok in *.
        destruct (t_fd u) as [[q k]|]; [ | exact I].
        destruct Hoff as [Hk Hfit]. split; [simpl; lia | ]. simpl.
        intros g [(<- & <-)|(_ & Hq)]%lookup_insert_Some Hg.
        -- simpl in Hg. lia.
        -- now apply Hfit.
    + rewrite disk_size_insert_fresh by exact Hf.
      rewrite (pending_bytes_insert _ _ t _ Hi), Hops. simpl. lia.
Qed.

(** A [write] of a child. *)
Lemma write_world_ok quota w i t bytes rest :
  world_ok quota w ->
  w_tasks w !! i = Some t -> t_ops t = op_write bytes :: rest ->
  world_ok quota (after_op w i t (op_write bytes) rest).
Proof.
  intros [Hino Hoff Hav Hneg Hexcl Hdebt Htotal] Hi Hops.
  rewrite Forall_lookup in Hoff. pose proof (Hoff i t Hi) as Ht.
  assert (Hpending :
            pending_bytes
              (<[i := {| t_fd := t_fd t; t_off := t_off t + length bytes;
                         t_ops := rest |}]> (w_tasks w))
            = pending_bytes (w_tasks w) - Z.of_nat (length bytes)).
  { rewrite (pending_bytes_insert _ _ t _ Hi), Hops. simpl. lia. }
  assert (Hidle : world_ok quota
            {| w_state := w_state w; w_fs := w_fs w;
               w_tasks := <[i := {| t_fd := t_fd t; t_off := t_off t;
                                    t_ops := rest |}]> (w_tasks w) |}).
  { split; simpl; try assumption.
    - apply Forall_insert; [now apply Forall_lookup | exact Ht].
    - rewrite (pending_bytes_insert _ _ t _ Hi), Hops. simpl. lia. }
  unfold after_op, exec_op.
  destruct (t_fd t) as [[path k]|] eqn:Hfd; [ | exact Hidle].
  unfold fd_ok in Ht. rewrite Hfd in Ht. destruct Ht as [Hk Hfit].
  unfold write_at.
  destruct (disk (w_fs w) !! path) as [f|] eqn:Hf;
    [destruct (decide (ino f = k)) as [Hsame|Hother] | ].
  - (* the bytes reach the file *)
    specialize (Hfit f eq_refl Hsame).
    split; simpl; try assumption.
    + intros q g [(<- & <-)|(_ & Hq)]%lookup_insert_Some; simpl;
        [exact Hk | exact (Hino q g Hq)].
    + apply Forall_lookup. intros j u Hj.
      assert (Hu : fd_ok (w_fs w) u
                   \/ u = {| t_fd := Some (path, k);
                             t_off := t_off t + length bytes; t_ops := rest |}).
      { apply list_lookup_insert_Some in Hj as [(_ & <- & _)|(_ & Hj)];
          [now right | left; exact (Hoff j u Hj)]. }
      destruct Hu as [Hu | ->]; unfold fd_ok in *; simpl.
      * destruct (t_fd u) as [[q k']|]; [ | exact I].
        destruct Hu as [Hk' Hufit]. split; [exact Hk' | ].
        intros g [(<- & <-)|(_ & Hq)]%lookup_insert_Some Hg; simpl in *.
        -- rewrite length_pwrite. specialize (Hufit f Hf ltac:(congruence)). lia.
        -- now apply Hufit.
      * split; [exact Hk | ].
        intros g [(_ & <-)|(Hne & _)]%lookup_insert_Some _; [ | congruence].
        simpl. rewrite length_pwrite. lia.
    + rewrite (disk_size_insert _ _ _ f Hf), Hpending. simpl.
      rewrite length_pwrite. lia.
  - (* the name leads to another inode by now *)
    split; simpl; try assumption.
    + apply Forall_insert; [now apply Forall_lookup | ].
      unfold fd_ok. simpl. split; [exact Hk | ].
      intros g Hg Hino'. rewrite Hf in Hg. congruence.
    + rewrite Hpending. lia.
  - (* the name is gone *)
    split; simpl; try assumption.
    + apply Forall_insert; [now apply Forall_lookup | ].
      unfold fd_ok. simpl. split; [exact Hk | ].
      intros g Hg. rewrite Hf in Hg. discriminate.
    + rewrite Hpending. lia.
Qed.

(** An [unlink] of a child. *)
Lemma unlink_world_ok quota w i t path rest :
  world_ok quota w ->
  w_tasks w !! i = Some t -> t_ops t = op_unlink path :: rest ->
  world_ok quota (after_op w i t (op_unlink path) rest).
Proof.
  intros [Hino Hoff Hav Hneg Hexcl Hdebt Htotal] Hi Hops.
  rewrite Forall_lookup in Hoff. pose proof (Hoff i t Hi) as Ht.
  unfold after_op, exec_op.
  assert (Hsub : forall q g, disk (unlink path (w_fs w)) !! q = Some g ->
                   disk (w_fs w) !! q = Some g).
  { intros q g. simpl. rewrite lookup_delete_Some. tauto. }
  pose proof (disk_size_unlink (disk (w_fs w)) path) as Hsize.
  split; simpl; try assumption.
  - intros q g Hq. apply (Hsub q g) in Hq. now apply (Hino q g).
  - apply Forall_insert.
    + apply Forall_lookup. intros j u Hj.
      apply (fd_ok_mono (w_fs w)); [exact (Hoff j u Hj) | simpl; lia | exact Hsub].
    + apply (fd_ok_mono (w_fs w) (unlink path (w_fs w)) t);
        [exact Ht | simpl; lia | exact Hsub].
  - rewrite (pending_bytes_insert _ _ t _ Hi), Hops. simpl. lia.
Qed.

(** Every call of a child keeps the invariant. *)
Lemma child_world_ok quota w i t op rest :
  world_ok quota w ->
  w_tasks w !! i = Some t -> t_ops t = op :: rest ->
  world_ok quota (after_op w i t op rest).
Proof.
  intros Hw Hi Hops. destruct op as [path|bytes|path].
  - now apply open_world_ok.
  - now apply write_world_ok.
  - now apply unlink_world_ok.
Qed.

(** ** Startup *)

Lemma folder_size_nonneg folder : 0 <= folder_size folder.
Proof. induction folder as [|[q bytes] folder IH]; simpl; lia. Qed.

Lemma folder_disk_inodes folder : forall i path f,
  folder_disk i folder !! path = Some f -> (ino f < i + length folder)%nat.
Proof.
  induction folder as [|[q bytes] folder IH]; intros i path f; simpl.
  - rewrite lookup_empty. discriminate.
  - intros [(<- & <-)|(_ & Hrest)]%lookup_insert_Some; simpl; [lia | ].
    specialize (IH _ _ _ Hrest). lia.
Qed.

Lemma folder_disk_size folder : forall i,
  disk_size (folder_disk i folder) <= folder_size folder.
Proof.
  induction folder as [|[path bytes] folder IH]; intros i; simpl.
  - rewrite disk_size_empty. lia.
  - specialize (IH (S i)).
    destruct (folder_disk (S i) folder !! path) as [old|] eqn:Hold.
    + rewrite (disk_size_insert _ _ _ old Hold). simpl. lia.
    + rewrite disk_size_insert_fresh by exact Hold. simpl. lia.
Qed.

(** The loop of [index_files] over a folder whose sizes add up within 64
    bits: the counters account exactly for the quota and the [total] size
    of the files met. *)
Lemma index_folder quota folder : forall st total,
  u64 quota ->
  u64 (available_space st) -> u64 (negative_space st) ->
  (0 < negative_space st -> available_space st = 0) ->
  available_space st + total = quota + negative_space st ->
  0 <= total -> total + folder_size folder < 2 ^ 64 ->
  let st' := foldl index_entry st (folder_listing folder) in
  u64 (available_space st') /\ u64 (negative_space st')
  /\ (0 < negative_space st' -> available_space st' = 0)
  /\ available_space st' + (total + folder_size folder)
     = quota + negative_space st'.
Proof.
  induction folder as [|[path bytes] folder IH];
    intros st total Hq Hav Hneg Hexcl Htotal Hpos Hfit.
  - simpl. rewrite Z.add_0_r. auto.
  - simpl in Hfit. pose proof (folder_size_nonneg folder) as Hrest.
    simpl foldl. simpl folder_size.
    replace (total + (Z.of_nat (length bytes) + folder_size folder))
      with ((total + Z.of_nat (length bytes)) + folder_size folder) by lia.
    assert (Hsize : wrap64 (Z.of_nat (length bytes)) = Z.of_nat (length bytes))
      by (apply wrap64_small; unfold u64; lia).
    apply IH; unfold index_entry; simpl; rewrite ?Hsize;
      destruct (Z.ltb_spec (available_space st) (Z.of_nat (length bytes)));
      simpl;
      try (rewrite (wrap64_small (Z.of_nat (length bytes) - available_space st))
             by (unfold u64 in *; lia));
      try (rewrite (wrap64_small (negative_space st + _))
             by (unfold u64 in *; lia));
      try (rewrite (wrap64_small (available_space st - _))
             by (unfold u64 in *; lia));
      try exact Hq; unfold u64 in *; try lia.
Qed.

Section run.
Context `{connection_h} (options : server_options).

(** The invariant holds when the loop is entered. *)
Lemma startup_world_ok folder :
  folder_size folder < 2 ^ 64 ->
  world_ok (wrap64 (MAX_SPACE options)) (startup options folder).
Proof.
  intros Hsize.
  destruct (index_folder (wrap64 (MAX_SPACE options)) folder
              (set_available_space (wrap64 (MAX_SPACE options)) current_server_state)
              0 (wrap64_u64 _) (wrap64_u64 _) u64_0
              ltac:(simpl; lia) ltac:(simpl; lia) ltac:(lia) ltac:(lia))
    as (Hav & Hneg & Hexcl & Htotal).
  pose proof (folder_disk_size folder O) as Hdisk.
  pose proof (wrap64_u64 (MAX_SPACE options)) as Hq.
  split; simpl; try assumption.
  - intros path f Hf. now apply folder_disk_inodes in Hf.
  - constructor.
  - destruct (Z.lt_ge_cases 0 (negative_space
                (foldl index_entry
                   (set_available_space (wrap64 (MAX_SPACE options))
                      current_server_state) (folder_listing folder))))
      as [Hpos|Hzero].
    + rewrite (Hexcl Hpos) in Htotal. lia.
    + unfold u64 in *. lia.
  - lia.
Qed.

(** The invariant holds all along the run. *)
Lemma reachable_world_ok folder w :
  folder_size folder < 2 ^ 64 ->
  reachable options folder w ->
  world_ok (wrap64 (MAX_SPACE options)) w.
Proof.
  intros Hsize Hrun. unfold reachable in Hrun. revert w Hrun.
  apply (rtc_ind_r (world_ok (wrap64 (MAX_SPACE options)))).
  - now apply startup_world_ok.
  - intros w1 w2 _ Hstep Hw.
    destruct Hstep as [w1 client buffer rcv_len fork_ok env | w1 i t op rest Hi Hops].
    + now apply read_requests_world_ok.
    + now apply child_world_ok.
Qed.


End run.


(** * Further properties: indexing and the ledger *)

(** The loop of [index_files] over any listing whose regular files add up
    within 64 bits. *)
Lemma index_entries quota entries : forall st total,
  0 <= quota ->
  u64 (available_space st) -> u64 (negative_space st) ->
  (0 < negative_space st -> available_space st = 0) ->
  available_space st + total = quota + negative_space st ->
  0 <= total ->
  (forall e, e ∈ entries -> e_regular e = true -> 0 <= e_size e) ->
  total + regular_size entries < 2 ^ 64 ->
  let st' := foldl index_entry st entries in
  files st' = files st ++ regular_paths entries
  /\ open_files st' = open_files st
  /\ u64 (available_space st') /\ u64 (negative_space st')
  /\ (0 < negative_space st' -> available_space st' = 0)
  /\ available_space st' + (total + regular_size entries)
     = quota + negative_space st'.
Proof.
  induction entries as [|e entries IH];
    intros st total Hq Hav Hneg Hexcl Htotal Hpos Hsizes Hfit.
  - simpl. rewrite app_nil_r, Z.add_0_r.
    split; [reflexivity | split; [reflexivity | ]].
    split; [assumption | split; [assumption | split; assumption]].
  - assert (Hrest : 0 <= regular_size entries).
    { clear -Hsizes. induction entries as [|x l IHl]; simpl; [lia | ].
      assert (0 <= regular_size l).
      { apply IHl. intros y Hy. apply Hsizes.
        apply elem_of_cons in Hy as [->|Hy]; [left | right; now right]. }
      destruct (e_regular x) eqn:Hx; [ | assumption].
      assert (0 <= e_size x) by (apply Hsizes; [right; left | exact Hx]). lia. }
    assert (Htail : forall x, x ∈ entries -> e_regular x = true -> 0 <= e_size x).
    { intros x Hx. apply Hsizes. now right. }
    simpl foldl. simpl regular_paths. simpl regular_size. simpl in Hfit.
    destruct (e_regular e) eqn:Hreg.
    + assert (He : 0 <= e_size e) by (apply Hsizes; [left | exact Hreg]).
      assert (Hsize : wrap64 (e_size e) = e_size e)
        by (apply wrap64_small; unfold u64; lia).
      replace (total + (e_size e + regular_size entries))
        with ((total + e_size e) + regular_size entries) by lia.
      replace (files st ++ e_path e :: regular_paths entries)
        with ((files st ++ [e_path e]) ++ regular_paths entries)
        by (now rewrite <- app_assoc).
      assert (Hstep :
        files (index_entry st e) = files st ++ [e_path e]
        /\ open_files (index_entry st e) = open_files st
        /\ u64 (available_space (index_entry st e))
        /\ u64 (negative_space (index_entry st e))
        /\ (0 < negative_space (index_entry st e) ->
            available_space (index_entry st e) = 0)
        /\ available_space (index_entry st e) + (total + e_size e)
           = quota + negative_space (index_entry st e)).
      { unfold index_entry. rewrite Hreg, Hsize. simpl.
        destruct (Z.ltb_spec (available_space st) (e_size e)); simpl.
        - rewrite (wrap64_small (e_size e - available_space st))
            by (unfold u64 in *; lia).
          rewrite (wrap64_small (negative_space st + _))
            by (unfold u64 in *; lia).
          unfold u64 in *. repeat split; first [reflexivity | lia].
        - rewrite (wrap64_small (available_space st - _))
            by (unfold u64 in *; lia).
          unfold u64 in *. repeat split; lia. }
      destruct Hstep as (Hf & Ho & Ha & Hn & Hx & Ht).
      rewrite <- Hf, <- Ho. apply IH; try assumption; lia.
    + assert (Hskip : index_entry st e = st)
        by (unfold index_entry; now rewrite Hreg).
      rewrite Hskip. now apply IH.
Qed.

(** X1.  [index_files], from the initial state, over a listing whose
    regular files have sizes adding up to [T] within 64 bits: the catalog
    is the regular files in the order met (other entries are skipped),
    [available_space] is the part of the quota left, [max(0, quota - T)],
    and [negative_space] is the excess, [max(0, T - quota)]. *)
Theorem index_files_closed_form options entries :
  (forall e, e ∈ entries -> e_regular e = true -> 0 <= e_size e) ->
  regular_size entries < 2 ^ 64 ->
  exists st,
    index_files options current_server_state (Some entries) = inr st
    /\ files st = regular_paths entries
    /\ available_space st
       = Z.max 0 (wrap64 (MAX_SPACE options) - regular_size entries)
    /\ negative_space st
       = Z.max 0 (regular_size entries - wrap64 (MAX_SPACE options)).
Proof.
  intros Hsizes Hfit. eexists. split; [reflexivity | ].
  pose proof (wrap64_u64 (MAX_SPACE options)) as Hq.
  destruct (index_entries (wrap64 (MAX_SPACE options)) entries
              (set_available_space (wrap64 (MAX_SPACE options)) current_server_state)
              0 ltac:(unfold u64 in Hq; lia) Hq u64_0 ltac:(simpl; lia) ltac:(simpl; lia) ltac:(lia)
              Hsizes ltac:(lia))
    as (Hfiles & _ & Hav & Hneg & Hexcl & Htotal).
  simpl in Hfiles. split; [exact Hfiles | ].
  unfold u64 in *.
  destruct (Z.lt_ge_cases 0 (negative_space
              (foldl index_entry
                 (set_available_space (wrap64 (MAX_SPACE options))
                    current_server_state) entries))) as [Hpos|Hzero].
  - rewrite (Hexcl Hpos) in *. lia.
  - lia.
Qed.

Lemma index_files_closed_form_example :
  exists st,
    index_files sample_options current_server_state (Some mixed_listing) = inr st
    /\ files st = ["shared/a"; "shared/b"]%string
    /\ available_space st = 60
    /\ negative_space st = 0.
Proof.
  apply (index_files_closed_form sample_options mixed_listing).
  - intros e He _. unfold mixed_listing in He.
    repeat (apply elem_of_cons in He as [->|He]; [simpl; lia | ]).
    inversion He.
  - vm_compute. reflexivity.
Defined.

(** X2.  Giving back what was reserved: a file indexed and then refunded
    with the same size leaves [available_space] and [negative_space] as
    they were, whether the file fitted the quota, went wholly into debt,
    or straddled the two. *)
Theorem refund_undoes_index_entry st e :
  u64 (available_space st) -> u64 (negative_space st) ->
  (0 < negative_space st -> available_space st = 0) ->
  e_regular e = true -> 0 <= e_size e ->
  negative_space st + e_size e < 2 ^ 64 ->
  available_space (refund (e_size e) (index_entry st e)) = available_space st
  /\ negative_space (refund (e_size e) (index_entry st e)) = negative_space st.
Proof.
  intros Hav Hneg Hexcl Hreg Hsize Hfit.
  assert (Hs : u64 (e_size e)) by (unfold u64 in *; lia).
  unfold index_entry. rewrite Hreg, (wrap64_small _ Hs). simpl.
  destruct (Z.ltb_spec (available_space st) (e_size e)) as [Hshort|Hfits]; simpl.
  - rewrite (wrap64_small (e_size e - available_space st))
      by (unfold u64 in *; lia).
    rewrite (wrap64_small (negative_space st + _)) by (unfold u64 in *; lia).
    unfold refund. simpl.
    destruct (Z.ltb_spec 0 (negative_space st
                            + (e_size e - available_space st))); [ | unfold u64 in *; lia].
    destruct (Z.ltb_spec (e_size e)
                (negative_space st + (e_size e - available_space st)));
      simpl.
    + rewrite wrap64_small by (unfold u64 in *; lia). unfold u64 in *. lia.
    + rewrite (wrap64_small (e_size e - _)) by (unfold u64 in *; lia).
      rewrite wrap64_small by (unfold u64 in *; lia). unfold u64 in *. lia.
  - rewrite (wrap64_small (available_space st - e_size e))
      by (unfold u64 in *; lia).
    unfold refund. simpl.
    destruct (Z.ltb_spec 0 (negative_space st)) as [Hpos|Hzero].
    + assert (Hnone : e_size e = 0) by (specialize (Hexcl Hpos); lia).
      rewrite Hnone.
      destruct (Z.ltb_spec 0 (negative_space st)); [ | lia]. simpl.
      rewrite !Z.sub_0_r, (wrap64_small _ Hneg). split; reflexivity.
    + simpl. rewrite wrap64_small by (unfold u64 in *; lia). unfold u64 in *. lia.
Qed.

Lemma refund_undoes_index_entry_example :
  available_space
    (refund 150 (index_entry two_files_state
                   {| e_path := "shared/big"; e_regular := true; e_size := 150 |}))
  = 60
  /\ negative_space
       (refund 150 (index_entry two_files_state
                      {| e_path := "shared/big"; e_regular := true; e_size := 150 |}))
     = 0.
Proof.
  apply (refund_undoes_index_entry two_files_state
           {| e_path := "shared/big"; e_regular := true; e_size := 150 |}).
  - vm_compute. split; [discriminate | reflexivity].
  - vm_compute. split; [discriminate | reflexivity].
  - simpl. lia.
  - reflexivity.
  - simpl. lia.
  - simpl. lia.
Defined.

(** * Further properties: the dispatcher *)

Lemma nul_from_repeat k : nul_from O (repeat_char NUL k) = true.
Proof. induction k as [|k IH]; simpl; [reflexivity | exact IH]. Qed.

Lemma nul_from_append s t : nul_from (String.length s) (s +:+ t) = nul_from O t.
Proof. induction s as [|a s IH]; [reflexivity | ]. rewrite append_cons. exact IH. Qed.

Lemma substring_append s t : substring 0 (String.length s) (s +:+ t) = s.
Proof.
  induction s as [|a s IH].
  - rewrite append_nil. destruct t; reflexivity.
  - rewrite append_cons. simpl. now rewrite IH.
Qed.

(** A string whose characters from position [n] on are all NUL is its
    first [n] characters followed by NULs. *)
Lemma split_at_nuls s : forall n,
  (forall j a, (n <= j)%nat -> String.get j s = Some a -> a = NUL) ->
  s = substring 0 n s +:+ repeat_char NUL (String.length s - n).
Proof.
  induction s as [|b s IH]; intros n Hnul.
  - destruct n; reflexivity.
  - destruct n as [|n].
    + assert (b = NUL) as -> by (apply (Hnul O); [lia | reflexivity]).
      simpl. rewrite append_nil. change (repeat_char NUL (S (String.length s)))
        with (String NUL (repeat_char NUL (String.length s))).
      f_equal. rewrite (IH O) at 1.
      * simpl. rewrite Nat.sub_0_r. destruct s; reflexivity.
      * intros j a _ Hget. apply (Hnul (S j)); [lia | exact Hget].
    + simpl. rewrite append_cons. f_equal. apply IH.
      intros j a Hj Hget. apply (Hnul (S j)); [lia | exact Hget].
Qed.

(** [command_equal] accepts exactly the command fields that are the name
    followed by NULs. *)
Lemma command_equal_padded request command :
  command_equal request command = true
  <-> exists k, cmd request = padded command k.
Proof.
  split.
  - intros [Hprefix Hnul]%command_equal_spec. eexists.
    rewrite (split_at_nuls _ _ Hnul) at 1. rewrite Hprefix. reflexivity.
  - intros [k Hcmd]. unfold command_equal, padded in *. rewrite Hcmd.
    rewrite nul_from_append, nul_from_repeat, substring_append.
    apply String.eqb_refl.
Qed.

(** A field that is one known name padded is not another known name
    padded. *)
Lemma command_equal_other request name k command :
  name ∈ command_names -> command ∈ command_names -> name <> command ->
  cmd request = padded name k ->
  command_equal request command = false.
Proof.
  intros Hname Hcommand Hne Hcmd.
  apply not_true_is_false. intros [j Hj]%command_equal_padded.
  rewrite Hcmd in Hj. unfold padded, command_names in *.
  repeat (apply elem_of_cons in Hname as [-> | Hname]);
    [ .. | inversion Hname];
    (repeat (apply elem_of_cons in Hcommand as [-> | Hcommand]);
       [ .. | inversion Hcommand]);
    try congruence;
    rewrite !append_cons in Hj; discriminate Hj.
Qed.

(** Closes the side conditions on command names given in full. *)
Ltac known_command :=
  first [discriminate | unfold command_names; repeat constructor].

Section dispatch_facts.
Context `{connection_h}.

(** X3.  A datagram long enough whose command field is one of the five
    names followed only by NULs is handled by the handler of that name and
    by no other: HELLO by [discover], DEL by [remove], LIST by [list], GET
    by [fetch]; ADD by [upload] on the complex record when the datagram is
    long enough for one, and dropped without an answer when it is not. *)
Theorem read_requests_routes options st fs client buffer rcv_len fork_ok k :
  0 <= rcv_len -> SIMPL_CMD_min_size <= rcv_len ->
  (cmd (make_SIMPL_CMD buffer rcv_len) = padded "HELLO" k ->
   read_requests options st fs client buffer rcv_len fork_ok
   = discover st fs options client (make_SIMPL_CMD buffer rcv_len))
  /\ (cmd (make_SIMPL_CMD buffer rcv_len) = padded "DEL" k ->
      read_requests options st fs client buffer rcv_len fork_ok
      = remove st fs client (make_SIMPL_CMD buffer rcv_len))
  /\ (cmd (make_SIMPL_CMD buffer rcv_len) = padded "LIST" k ->
      read_requests options st fs client buffer rcv_len fork_ok
      = list_files st fs client (make_SIMPL_CMD buffer rcv_len))
  /\ (cmd (make_SIMPL_CMD buffer rcv_len) = padded "GET" k ->
      read_requests options st fs client buffer rcv_len fork_ok
      = fetch options st fs client (make_SIMPL_CMD buffer rcv_len) fork_ok)
  /\ (cmd (make_SIMPL_CMD buffer rcv_len) = padded "ADD" k ->
      read_requests options st fs client buffer rcv_len fork_ok
      = if rcv_len <? CMPLX_CMD_min_size then returns st fs []
        else upload options st fs client
               (with_uint64_param (make_CMPLX_CMD buffer rcv_len)) fork_ok).
Proof.
  intros Hlen Hmin.
  assert (Hhead :
            read_requests options st fs client buffer rcv_len fork_ok
            = (if command_equal (make_SIMPL_CMD buffer rcv_len) "HELLO" then
                 discover st fs options client (make_SIMPL_CMD buffer rcv_len)
               else if command_equal (make_SIMPL_CMD buffer rcv_len) "DEL" then
                 remove st fs client (make_SIMPL_CMD buffer rcv_len)
               else if command_equal (make_SIMPL_CMD buffer rcv_len) "LIST" then
                 list_files st fs client (make_SIMPL_CMD buffer rcv_len)
               else if command_equal (make_SIMPL_CMD buffer rcv_len) "GET" then
                 fetch options st fs client (make_SIMPL_CMD buffer rcv_len) fork_ok
               else if command_equal (make_SIMPL_CMD buffer rcv_len) "ADD" then
                 if rcv_len <? CMPLX_CMD_min_size then returns st fs []
                 else
                   upload options st fs client
                     (with_uint64_param (make_CMPLX_CMD buffer rcv_len)) fork_ok
               else returns st fs [error_message client "Invalid cmd."])).
  { unfold read_requests, message_too_short.
    destruct (Z.ltb_spec rcv_len 0); [lia | ].
    destruct (Z.ltb_spec rcv_len SIMPL_CMD_min_size); [lia | ]. reflexivity. }
  assert (Hyes : forall name,
            cmd (make_SIMPL_CMD buffer rcv_len) = padded name k ->
            command_equal (make_SIMPL_CMD buffer rcv_len) name = true).
  { intros name Hcmd. apply command_equal_padded. eauto. }
  assert (Hno : forall name command,
            cmd (make_SIMPL_CMD buffer rcv_len) = padded name k ->
            name ∈ command_names -> command ∈ command_names -> name <> command ->
            command_equal (make_SIMPL_CMD buffer rcv_len) command = false).
  { intros name command Hcmd ? ? ?. now apply (command_equal_other _ name k). }
  rewrite Hhead. clear Hhead.
  split; [ | split; [ | split; [ | split]]]; intros Hcmd.
  - now rewrite (Hyes _ Hcmd).
  - rewrite (Hno _ "HELLO"%string Hcmd) by known_command.
    now rewrite (Hyes _ Hcmd).
  - rewrite (Hno _ "HELLO"%string Hcmd), (Hno _ "DEL"%string Hcmd)
      by known_command.
    now rewrite (Hyes _ Hcmd).
  - rewrite (Hno _ "HELLO"%string Hcmd), (Hno _ "DEL"%string Hcmd),
      (Hno _ "LIST"%string Hcmd) by known_command.
    now rewrite (Hyes _ Hcmd).
  - rewrite (Hno _ "HELLO"%string Hcmd), (Hno _ "DEL"%string Hcmd),
      (Hno _ "LIST"%string Hcmd), (Hno _ "GET"%string Hcmd) by known_command.
    now rewrite (Hyes _ Hcmd).
Qed.

Lemma keeps_frame_same st fs sent child thrown :
  keeps_frame st fs
    {| r_state := st; r_fs := fs; r_sent := sent; r_child := child;
       r_thrown := thrown |}.
Proof. unfold keeps_frame. simpl. auto. Qed.

Lemma remove_keeps_frame st fs client request :
  keeps_frame st fs (remove st fs client request).
Proof.
  unfold remove. destruct (check_data_not_empty request client) as [[|] sent];
    [ | apply keeps_frame_same].
  destruct (find_file _ _) as [[it path]|]; [ | apply keeps_frame_same].
  destruct (file_size fs path) as [s|]; [ | apply keeps_frame_same].
  unfold keeps_frame, refund. simpl.
  repeat split; try (repeat case_match; reflexivity).
  intros q f [_ Hq]%lookup_delete_Some. exact Hq.
Qed.

Lemma upload_keeps_frame options st fs client request fork_ok :
  keeps_frame st fs (upload options st fs client request fork_ok).
Proof.
  unfold upload. repeat case_match; unfold keeps_frame; simpl; auto.
Qed.

(** A turn of the loop leaves state and files as they are, or it is a
    removal, or an upload. *)
Lemma read_requests_cases (P : reply -> Prop) options st fs client buffer
    rcv_len fork_ok :
  (forall sent child thrown,
     P {| r_state := st; r_fs := fs; r_sent := sent; r_child := child;
          r_thrown := thrown |}) ->
  (forall request, P (remove st fs client request)) ->
  (forall request, P (upload options st fs client request fork_ok)) ->
  P (read_requests options st fs client buffer rcv_len fork_ok).
Proof.
  intros Hquiet Hremove Hupload. unfold read_requests.
  destruct (rcv_len <? 0); [apply Hquiet | ].
  destruct (message_too_short _ _); [apply Hquiet | ].
  destruct (command_equal _ "HELLO").
  { unfold discover. destruct (check_data_empty _ _) as [[|] sent]; apply Hquiet. }
  destruct (command_equal _ "DEL"); [apply Hremove | ].
  destruct (command_equal _ "LIST"); [apply Hquiet | ].
  destruct (command_equal _ "GET").
  { unfold fetch. destruct (find_file _ _) as [[it path]|];
      [destruct fork_ok | ]; apply Hquiet. }
  destruct (command_equal _ "ADD"); [ | apply Hquiet].
  destruct (message_too_short _ _); [apply Hquiet | ].
  apply Hupload.
Qed.

Lemma read_requests_keeps_frame options st fs client buffer rcv_len fork_ok :
  keeps_frame st fs (read_requests options st fs client buffer rcv_len fork_ok).
Proof.
  apply read_requests_cases.
  - intros sent child thrown. apply keeps_frame_same.
  - intros request. apply remove_keeps_frame.
  - intros request. apply upload_keeps_frame.
Qed.

(** X4.  One turn of the serving loop, whatever the datagram: the socket,
    the multicast membership record and the set of open files of the state
    are not changed, no file is created or modified (files can only
    disappear), and unless the command field is DEL or ADD padded with
    NULs, state and file system come out exactly as they went in. *)
Theorem read_requests_changes_little options st fs client buffer rcv_len fork_ok :
  (socket (r_state (read_requests options st fs client buffer rcv_len fork_ok))
   = socket st
   /\ ip_mreq (r_state (read_requests options st fs client buffer rcv_len fork_ok))
      = ip_mreq st
   /\ open_files (r_state (read_requests options st fs client buffer rcv_len fork_ok))
      = open_files st
   /\ next_ino (r_fs (read_requests options st fs client buffer rcv_len fork_ok))
      = next_ino fs
   /\ forall path f,
        disk (r_fs (read_requests options st fs client buffer rcv_len fork_ok))
          !! path = Some f ->
        disk fs !! path = Some f)
  /\ ((forall k, cmd (make_SIMPL_CMD buffer rcv_len) <> padded "DEL" k) ->
      (forall k, cmd (make_SIMPL_CMD buffer rcv_len) <> padded "ADD" k) ->
      r_state (read_requests options st fs client buffer rcv_len fork_ok) = st
      /\ r_fs (read_requests options st fs client buffer rcv_len fork_ok) = fs).
Proof.
  split.
  - apply read_requests_keeps_frame.
  - intros Hdel Hadd.
    assert (command_equal (make_SIMPL_CMD buffer rcv_len) "DEL" = false) as Hd.
    { apply not_true_is_false. intros [k Hk]%command_equal_padded.
      exact (Hdel k Hk). }
    assert (command_equal (make_SIMPL_CMD buffer rcv_len) "ADD" = false) as Ha.
    { apply not_true_is_false. intros [k Hk]%command_equal_padded.
      exact (Hadd k Hk). }
    unfold read_requests. rewrite Hd, Ha.
    destruct (rcv_len <? 0); [now split | ].
    destruct (message_too_short _ _); [now split | ].
    destruct (command_equal _ "HELLO").
    { unfold discover. destruct (check_data_empty _ _) as [[|] sent]; now split. }
    destruct (command_equal _ "LIST"); [now split | ].
    destruct (command_equal _ "GET"); [ | now split].
    unfold fetch. destruct (find_file _ _) as [[it path]|];
      [destruct fork_ok | ]; now split.
Qed.

End dispatch_facts.

(** The datagram "HELLO" goes to [discover]. *)
Lemma read_requests_routes_hello :
  read_requests (H := sample_connection) sample_options two_files_state
    two_files_fs sample_client hello_datagram 18 true
  = discover two_files_state two_files_fs sample_options sample_client
      (make_SIMPL_CMD (connection_h := sample_connection) hello_datagram 18).
Proof.
  apply (proj1 (read_requests_routes (H := sample_connection) sample_options
                  two_files_state two_files_fs sample_client hello_datagram 18
                  true 5 ltac:(lia) ltac:(simpl; lia))).
  vm_compute. reflexivity.
Defined.

(** * Further properties: removal, and uploads that never arrive *)

(** [find_file] stops at the first entry of that name. *)
Lemma find_file_first target l : forall it path,
  find_file target l = Some (it, path) ->
  forall j q, (j < it)%nat -> l !! j = Some q -> filename q <> target.
Proof.
  induction l as [|p r IH]; intros it path; simpl; [discriminate | ].
  destruct (String.eqb_spec (filename p) target) as [Heq|Hne].
  - intros [= <- <-] j q Hj. lia.
  - destruct (find_file target r) as [[i q0]|] eqn:Hfind; simpl; [ | discriminate].
    intros [= <- <-] [|j] q Hj; simpl.
    + now intros [= <-].
    + apply (IH i q0 eq_refl). lia.
Qed.

Lemma NoDup_delete_lookup {A} (l : list A) i x :
  NoDup l -> l !! i = Some x -> x ∉ delete i l.
Proof.
  revert i. induction l as [|a l IH]; intros [|i] Hnd Hi; simpl in *;
    try discriminate; apply NoDup_cons in Hnd as [Ha Hnd].
  - now injection Hi as ->.
  - apply not_elem_of_cons. split.
    + intros ->. apply Ha. apply list_elem_of_lookup. eauto.
    + now apply IH.
Qed.


(** X5.  A remove request for a name that is in the catalog and whose
    file is on disk: nothing is sent or thrown, the entry erased is the
    first of that name, the other entries keep their order, the file and
    only that file leaves the disk; and if the names of the catalog are
    distinct the name is gone from it, so that the same request sent again
    is ignored. *)
Theorem remove_erases_first_entry st fs client request it path f :
  data request <> ""%string ->
  find_file (data request) (files st) = Some (it, path) ->
  disk fs !! path = Some f ->
  r_thrown (remove st fs client request) = None
  /\ r_sent (remove st fs client request) = []
  /\ files (r_state (remove st fs client request)) = delete it (files st)
  /\ disk (r_fs (remove st fs client request)) = delete path (disk fs)
  /\ (forall j q, (j < it)%nat -> files st !! j = Some q ->
        filename q <> data request)
  /\ (NoDup (filename <$> files st) ->
      (data request ∉ filename <$> files (r_state (remove st fs client request)))
      /\ remove (r_state (remove st fs client request))
           (r_fs (remove st fs client request)) client request
         = returns (r_state (remove st fs client request))
             (r_fs (remove st fs client request)) []).
Proof.
  intros Hdata Hfind Hf.
  assert (Hrun : remove st fs client request
                 = returns
                     (set_files (delete it (files (refund
                        (wrap64 (Z.of_nat (length (content f)))) st)))
                        (refund (wrap64 (Z.of_nat (length (content f)))) st))
                     (unlink path fs) []).
  { unfold remove, check_data_not_empty, file_size.
    destruct (String.eqb_spec (data request) "") as [Heq|_]; [contradiction | ].
    now rewrite Hfind, Hf. }
  assert (Hfiles : files (refund (wrap64 (Z.of_nat (length (content f)))) st)
                   = files st)
    by (unfold refund; repeat case_match; reflexivity).
  rewrite Hrun. simpl. rewrite Hfiles.
  split; [reflexivity | ]. split; [reflexivity | ]. split; [reflexivity | ].
  split; [reflexivity | ]. split; [now apply (find_file_first _ _ it path) | ].
  intros Hnd.
  assert (Hgone : data request ∉ filename <$> delete it (files st)).
  { apply find_file_Some in Hfind as [Hit Hname].
    rewrite list_fmap_delete. apply NoDup_delete_lookup; [exact Hnd | ].
    rewrite list_lookup_fmap, Hit. simpl. now rewrite Hname. }
  split; [exact Hgone | ].
  unfold remove, check_data_not_empty.
  destruct (String.eqb_spec (data request) "") as [Heq|_]; [contradiction | ].
  simpl. apply find_file_None in Hgone. now rewrite Hgone.
Qed.

Lemma remove_erases_first_entry_example :
  files (r_state (remove two_files_state two_files_fs sample_client del_a))
  = ["shared/b"%string]
  /\ disk (r_fs (remove two_files_state two_files_fs sample_client del_a))
     = delete "shared/a"%string (disk two_files_fs)
  /\ remove (r_state (remove two_files_state two_files_fs sample_client del_a))
       (r_fs (remove two_files_state two_files_fs sample_client del_a))
       sample_client del_a
     = returns (r_state (remove two_files_state two_files_fs sample_client del_a))
         (r_fs (remove two_files_state two_files_fs sample_client del_a)) [].
Proof.
  destruct (remove_erases_first_entry two_files_state two_files_fs sample_client
              del_a O "shared/a"%string (zeros 0 30)
              ltac:(discriminate) ltac:(reflexivity) ltac:(vm_compute; reflexivity))
    as (_ & _ & Hfiles & Hdisk & _ & Hagain).
  split; [exact Hfiles | ]. split; [exact Hdisk | ].
  apply Hagain. simpl. apply NoDup_cons. split; [not_listed | apply NoDup_singleton].
Defined.

Section ghost_facts.
Context `{connection_h}.


End ghost_facts.


(** * Further properties: search *)

(** A substring is a piece of the string. *)
Lemma substring_prefix s : forall n, exists post, s = substring 0 n s +:+ post.
Proof.
  induction s as [|a s IH]; intros [|n]; simpl.
  - now exists ""%string.
  - now exists ""%string.
  - now exists (String a s).
  - destruct (IH n) as [post Hpost]. exists post.
    rewrite append_cons. now rewrite <- Hpost.
Qed.

Lemma substring_piece s : forall m n,
  exists pre post, s = pre +:+ substring m n s +:+ post.
Proof.
  induction s as [|a s IH]; intros m n.
  - exists ""%string, ""%string. destruct m, n; reflexivity.
  - destruct m as [|m].
    + destruct (substring_prefix (String a s) n) as [post Hpost].
      exists ""%string, post. now rewrite append_nil.
    + destruct (IH m n) as (pre & post & Hs). exists (String a pre), post.
      rewrite append_cons. simpl substring. now rewrite <- Hs.
Qed.

Lemma substring_skip pre : forall n x,
  substring (String.length pre) n (pre +:+ x) = substring 0 n x.
Proof.
  induction pre as [|a pre IH]; intros n x; [reflexivity | ].
  rewrite append_cons. simpl. apply IH.
Qed.

(** [contains] is "occurs in": the name is something, the pattern,
    something. *)
Lemma contains_spec pattern name :
  contains pattern name = true
  <-> exists pre post, name = pre +:+ pattern +:+ post.
Proof.
  unfold contains. split.
  - destruct (String.index 0 pattern name) as [m|] eqn:Hindex; [ | discriminate].
    intros _. apply String.index_correct1 in Hindex.
    destruct (substring_piece name m (String.length pattern)) as (pre & post & Hname).
    exists pre, post. now rewrite Hindex in Hname.
  - intros (pre & post & ->).
    destruct (String.index 0 pattern (pre +:+ pattern +:+ post)) as [m|] eqn:Hindex;
      [reflexivity | ].
    destruct pattern as [|a pattern].
    + apply String.index_correct4 in Hindex. lia.
    + exfalso.
      apply (String.index_correct3 0 (String.length pre) _ _ Hindex);
        [discriminate | lia | ].
      rewrite substring_skip. apply substring_append.
Qed.

Lemma search_results_sublist pattern l :
  search_results pattern l `sublist_of` filename <$> l.
Proof.
  induction l as [|p r IH]; simpl; [constructor | ].
  destruct (contains pattern (filename p)); now constructor.
Qed.

Lemma search_results_elem pattern l name :
  name ∈ search_results pattern l
  <-> exists path, path ∈ l /\ filename path = name
                   /\ contains pattern name = true.
Proof.
  induction l as [|p r IH]; simpl.
  - split; [intros Hin; inversion Hin | intros (path & Hin & _); inversion Hin].
  - destruct (contains pattern (filename p)) eqn:Hp.
    + rewrite elem_of_cons, IH. split.
      * intros [-> | (path & Hin & Hname & Hc)].
        -- exists p. split; [left | now split].
        -- exists path. split; [now right | now split].
      * intros (path & [-> | Hin]%elem_of_cons & Hname & Hc).
        -- left. now symmetry.
        -- right. now exists path.
    + rewrite IH. split.
      * intros (path & Hin & Hname & Hc). exists path. split; [now right | now split].
      * intros (path & [-> | Hin]%elem_of_cons & Hname & Hc).
        -- rewrite Hname in Hp. congruence.
        -- now exists path.
Qed.

(** X7.  What a search finds: a name is among the results exactly when it
    is the last component of a path of the catalog and the pattern occurs
    in it (between two possibly empty strings, letter case kept); and the
    results come in catalog order, each entry at most once. *)
Theorem search_matches_substrings pattern l :
  (forall name,
     name ∈ search_results pattern l
     <-> exists path, path ∈ l /\ filename path = name
                      /\ exists pre post, name = pre +:+ pattern +:+ post)
  /\ search_results pattern l `sublist_of` filename <$> l.
Proof.
  split; [ | apply search_results_sublist].
  intros name. rewrite search_results_elem.
  split; intros (path & Hin & Hname & Hc); exists path;
    (split; [exact Hin | split; [exact Hname | now apply contains_spec]]).
Qed.

Section search_more.
Context `{connection_h}.

Lemma join_lines_snoc pre x :
  pre <> [] -> join_lines (pre ++ [x]) = join_lines pre +:+ newline +:+ x.
Proof.
  induction pre as [|a [|b l] IH]; intros Hpre; [congruence | reflexivity | ].
  change ((a :: b :: l) ++ [x]) with (a :: b :: (l ++ [x])).
  rewrite !join_lines_cons. change (b :: l ++ [x]) with ((b :: l) ++ [x]).
  rewrite IH by discriminate. now rewrite !append_assoc.
Qed.

(** One packet is made of whole names taken from the front of the list. *)
Lemma prepare_packet_takes results : forall data current,
  exists taken,
    results = taken ++ snd (prepare_packet data current results)
    /\ forall pre, pre <> [] -> data = join_lines pre ->
         fst (prepare_packet data current results) = join_lines (pre ++ taken).
Proof.
  induction results as [|next rest IH]; intros data current; simpl.
  - exists []. split; [reflexivity | ]. intros pre _ ->. now rewrite app_nil_r.
  - destruct (str_size data + str_size current + 1 <? MAX_SIMPL_DATA_LEN).
    + destruct (IH (data +:+ newline +:+ next) next) as (taken & Hrest & Hdata).
      exists (next :: taken). split; [simpl; now f_equal | ].
      intros pre Hpre ->.
      rewrite (Hdata (pre ++ [next])).
      * now rewrite <- app_assoc.
      * intros [? _]%app_eq_nil. contradiction.
      * now rewrite join_lines_snoc.
    + exists []. split; [reflexivity | ]. intros pre _ ->. now rewrite app_nil_r.
Qed.

Lemma send_packets_chunks sock client seq fuel : forall results,
  (length results <= fuel)%nat ->
  exists chunks,
    concat chunks = results
    /\ Forall (fun chunk => chunk <> []) chunks
    /\ send_packets fuel sock client seq results
       = (fun chunk => send_simple_message sock client "MY_LIST"
                         (join_lines chunk) seq) <$> chunks.
Proof.
  induction fuel as [|fuel IH]; intros results Hfuel.
  - destruct results; [ | simpl in Hfuel; lia]. exists []. repeat split. constructor.
  - destruct results as [|current rest].
    { exists []. repeat split. constructor. }
    simpl in Hfuel. simpl.
    destruct (prepare_packet_takes rest current current) as (taken & Hrest & Hdata).
    specialize (Hdata [current] ltac:(discriminate) eq_refl).
    destruct (prepare_packet current current rest) as [data rest'].
    simpl in Hrest, Hdata.
    destruct (IH rest') as (chunks & Hconcat & Hall & Hsent).
    { pose proof (f_equal length Hrest) as Hlen. rewrite length_app in Hlen. lia. }
    exists ((current :: taken) :: chunks). split; [ | split].
    + simpl. rewrite Hconcat. f_equal. now symmetry.
    + constructor; [discriminate | exact Hall].
    + rewrite fmap_cons. now rewrite Hsent, Hdata.
Qed.

(** X8.  The datagrams of a search carry whole names: the results are cut
    into consecutive groups, none empty, and each group is sent as one
    "MY_LIST" datagram, to the requester, with the sequence number of the
    request, its names joined by newlines; the state and the files are
    left alone.  (So there are at most as many datagrams as names.) *)
Theorem list_files_whole_names st fs client request :
  exists chunks,
    concat chunks = search_results (data request) (files st)
    /\ Forall (fun chunk => chunk <> []) chunks
    /\ list_files st fs client request
       = returns st fs
           ((fun chunk => send_simple_message (socket st) client "MY_LIST"
                            (join_lines chunk) (cmd_seq request)) <$> chunks).
Proof.
  destruct (send_packets_chunks (socket st) client (cmd_seq request)
              (length (search_results (data request) (files st)))
              (search_results (data request) (files st)) ltac:(lia))
    as (chunks & Hconcat & Hall & Hsent).
  exists chunks. split; [exact Hconcat | ]. split; [exact Hall | ].
  unfold list_files. now rewrite Hsent.
Qed.

(** A property of the names to come that every packet keeps for the names
    it leaves, and that gives a property of its payload, holds of the
    payload of every datagram. *)
Lemma send_packets_Forall (Q : list string -> Prop) (P : string -> Prop)
    sock client seq :
  (forall current rest, Q (current :: rest) ->
     P (fst (prepare_packet current current rest))
     /\ Q (snd (prepare_packet current current rest))) ->
  forall fuel results, Q results ->
    Forall (fun m => P (payload_of m)) (send_packets fuel sock client seq results).
Proof.
  intros Hpacket. induction fuel as [|fuel IH]; intros results Hresults;
    [constructor | ].
  destruct results as [|current rest]; [constructor | ]. simpl.
  destruct (Hpacket current rest Hresults) as [Hdata Hrest].
  destruct (prepare_packet current current rest) as [data rest'].
  constructor; [exact Hdata | now apply IH].
Qed.

Lemma prepare_packet_suffix results data current name :
  name ∈ snd (prepare_packet data current results) -> name ∈ results.
Proof.
  destruct (prepare_packet_takes results data current) as (taken & Hrest & _).
  intros Hin. rewrite Hrest. apply elem_of_app. now right.
Qed.

Lemma prepare_packet_overshoot L results : forall data current,
  (forall name, name ∈ results -> str_size name <= L) ->
  str_size data < MAX_SIMPL_DATA_LEN + L ->
  str_size (fst (prepare_packet data current results)) < MAX_SIMPL_DATA_LEN + L.
Proof.
  induction results as [|next rest IH]; intros data current Hnames Hdata; simpl;
    [exact Hdata | ].
  destruct (Z.ltb_spec (str_size data + str_size current + 1) MAX_SIMPL_DATA_LEN);
    [ | exact Hdata].
  apply IH.
  - intros name Hin. apply Hnames. now right.
  - rewrite !str_size_append. change (str_size newline) with 1.
    pose proof (str_size_nonneg current).
    assert (str_size next <= L) by (apply Hnames; left). lia.
Qed.

Lemma prepare_packet_within results : forall data current,
  never_longer (current :: results) ->
  str_size data < MAX_SIMPL_DATA_LEN ->
  str_size (fst (prepare_packet data current results)) < MAX_SIMPL_DATA_LEN
  /\ never_longer (snd (prepare_packet data current results)).
Proof.
  induction results as [|next rest IH]; intros data current Hsorted Hdata.
  - split; [exact Hdata | exact I].
  - destruct Hsorted as [Hhead Hrest]. simpl prepare_packet.
    destruct (Z.ltb_spec (str_size data + str_size current + 1) MAX_SIMPL_DATA_LEN);
      [ | now split].
    apply IH; [exact Hrest | ].
    rewrite !str_size_append. change (str_size newline) with 1. lia.
Qed.

(** X9.  How far a search datagram can go past [MAX_SIMPL_DATA_LEN]: if no
    name found is longer than [L], every payload is shorter than
    [MAX_SIMPL_DATA_LEN + L]. *)
Theorem list_payload_overshoot st fs client request L :
  0 < MAX_SIMPL_DATA_LEN ->
  (forall name, name ∈ search_results (data request) (files st) ->
     str_size name <= L) ->
  Forall (fun m => str_size (payload_of m) < MAX_SIMPL_DATA_LEN + L)
    (r_sent (list_files st fs client request)).
Proof.
  intros Hmax Hnames. unfold list_files. simpl r_sent.
  apply (send_packets_Forall
           (fun results => forall name, name ∈ results -> str_size name <= L)
           (fun payload => str_size payload < MAX_SIMPL_DATA_LEN + L));
    [ | exact Hnames].
  intros current rest Hall. split.
  - apply prepare_packet_overshoot.
    + intros name Hin. apply Hall. now right.
    + assert (str_size current <= L) by (apply Hall; left). lia.
  - intros name Hin%prepare_packet_suffix. apply Hall. now right.
Qed.

(** X10.  When the limit is kept: if each name found is shorter than
    [MAX_SIMPL_DATA_LEN] and none is longer than the one found before it,
    every payload is shorter than [MAX_SIMPL_DATA_LEN]. *)
Theorem list_payload_within_limit st fs client request :
  never_longer (search_results (data request) (files st)) ->
  (forall name, name ∈ search_results (data request) (files st) ->
     str_size name < MAX_SIMPL_DATA_LEN) ->
  Forall (fun m => str_size (payload_of m) < MAX_SIMPL_DATA_LEN)
    (r_sent (list_files st fs client request)).
Proof.
  intros Hsorted Hnames. unfold list_files. simpl r_sent.
  apply (send_packets_Forall
           (fun results =>
              never_longer results
              /\ forall name, name ∈ results -> str_size name < MAX_SIMPL_DATA_LEN)
           (fun payload => str_size payload < MAX_SIMPL_DATA_LEN));
    [ | now split].
  intros current rest [Hs Hall].
  destruct (prepare_packet_within rest current current Hs) as [Hdata Hrest].
  { apply Hall. left. }
  split; [exact Hdata | ]. split; [exact Hrest | ].
  intros name Hin%prepare_packet_suffix. apply Hall. now right.
Qed.

End search_more.

Lemma list_payload_overshoot_example :
  Forall (fun m => str_size (payload_of m) < 65489 + 1)
    (r_sent (list_files (H := sample_connection) two_files_state two_files_fs
               sample_client list_a_or_b)).
Proof.
  apply (list_payload_overshoot (H := sample_connection) two_files_state
           two_files_fs sample_client list_a_or_b 1).
  - simpl. lia.
  - intros name Hin. vm_compute in Hin.
    apply elem_of_cons in Hin as [-> | Hin]; [vm_compute; discriminate | ].
    apply list_elem_of_singleton in Hin as ->. vm_compute. discriminate.
Defined.

Lemma list_payload_within_limit_example :
  Forall (fun m => str_size (payload_of m) < 65489)
    (r_sent (list_files (H := sample_connection) two_files_state two_files_fs
               sample_client list_a_or_b)).
Proof.
  apply (list_payload_within_limit (H := sample_connection) two_files_state
           two_files_fs sample_client list_a_or_b).
  - vm_compute. split; [discriminate | exact I].
  - intros name Hin. vm_compute in Hin.
    apply elem_of_cons in Hin as [-> | Hin]; [vm_compute; reflexivity | ].
    apply list_elem_of_singleton in Hin as ->. vm_compute. reflexivity.
Defined.

(** * Further properties: what is transferred *)

Section transfer_facts.
Context `{connection_h}.

(** The sending loop sends the file from its start, in order; when it ends
    because the file has been read to its end, it has sent all of it. *)
Lemma send_loop_spec fuel : forall rest rs ws,
  0 < BSIZE -> (length rest < fuel)%nat ->
  fst (send_loop fuel rest rs ws) `prefix_of` rest
  /\ (snd (send_loop fuel rest rs ws) = loop_done ->
      fst (send_loop fuel rest rs ws) = rest).
Proof.
  induction fuel as [|fuel IH]; intros rest rs ws Hsize Hfuel; [lia | ].
  simpl.
  destruct (hd file_read_ok rs); simpl;
    [ | split; [apply prefix_nil | discriminate]].
  destruct (Z.ltb_spec 0 (Z.of_nat (length (take (Z.to_nat BSIZE) rest))))
    as [Hread|Hend].
  - destruct (hd (socket_write_returns write_all) ws) as [w|];
      [ | simpl; split; [apply prefix_nil | discriminate]].
    destruct (Z.eqb_spec
                (write_len_of w (Z.of_nat (length (take (Z.to_nat BSIZE) rest))))
                (Z.of_nat (length (take (Z.to_nat BSIZE) rest)))) as [_|_].
    + rewrite length_take in Hread.
      destruct (IH (drop (Z.to_nat BSIZE) rest) (tl rs) (tl ws) Hsize)
        as [Hprefix Hall].
      { rewrite length_drop. lia. }
      destruct (send_loop fuel (drop (Z.to_nat BSIZE) rest) (tl rs) (tl ws))
        as [more ending].
      simpl in *. split.
      * rewrite <- (take_drop (Z.to_nat BSIZE) rest) at 2. now apply prefix_app.
      * intros Hdone. rewrite (Hall Hdone). apply take_drop.
    + simpl. split; [ | discriminate].
      etransitivity; apply prefix_take.
  - destruct (Z.ltb_spec (Z.of_nat (length (take (Z.to_nat BSIZE) rest))) 0);
      [lia | ].
    simpl. rewrite length_take in Hend.
    assert (rest = []) as -> by (apply length_zero_iff_nil; lia).
    split; reflexivity.
Qed.

(** When every read of the file works and every write to the client takes
    all it is given, the loop ends at the end of the file. *)
Lemma send_loop_full fuel : forall rest rs ws,
  (forall r, r ∈ rs -> r = file_read_ok) ->
  (forall w, w ∈ ws -> w = socket_write_returns write_all) ->
  snd (send_loop fuel rest rs ws) = loop_done.
Proof.
  induction fuel as [|fuel IH]; intros rest rs ws Hreads Hfull; [reflexivity | ].
  simpl.
  assert (hd file_read_ok rs = file_read_ok) as ->.
  { destruct rs as [|r rs]; [reflexivity | ]. apply Hreads. left. }
  assert (hd (socket_write_returns write_all) ws = socket_write_returns write_all)
    as ->.
  { destruct ws as [|w ws]; [reflexivity | ]. apply Hfull. left. }
  destruct (Z.ltb_spec 0 (Z.of_nat (length (take (Z.to_nat BSIZE) rest)))).
  - simpl. rewrite Z.eqb_refl.
    specialize (IH (drop (Z.to_nat BSIZE) rest) (tl rs) (tl ws)).
    destruct (send_loop fuel (drop (Z.to_nat BSIZE) rest) (tl rs) (tl ws))
      as [more ending].
    simpl in *. apply IH.
    + intros r Hr. apply Hreads.
      destruct rs as [|r0 rs]; [inversion Hr | now right].
    + intros w Hw. apply Hfull.
      destruct ws as [|w0 ws]; [inversion Hw | now right].
  - destruct (Z.ltb_spec (Z.of_nat (length (take (Z.to_nat BSIZE) rest))) 0);
      [lia | reflexivity].
Qed.

(** What the child of a fetch sends over TCP. *)
Lemma send_file_result options st fs client request path env f :
  0 < BSIZE ->
  disk fs !! path = Some f ->
  x_tcp (send_file options st fs client request path env) `prefix_of` content f
  /\ (select_ready env = true ->
      x_thrown (send_file options st fs client request path env) = None ->
      x_signal (send_file options st fs client request path env) = None ->
      x_tcp (send_file options st fs client request path env) = content f)
  /\ (tcp_port env <> None -> select_ready env = true ->
      accept_ok env = true -> open_ok env = true -> close_ok env = true ->
      (forall r, r ∈ file_reads env -> r = file_read_ok) ->
      (forall w, w ∈ socket_writes env -> w = socket_write_returns write_all) ->
      x_thrown (send_file options st fs client request path env) = None
      /\ x_signal (send_file options st fs client request path env) = None
      /\ x_tcp (send_file options st fs client request path env) = content f).
Proof.
  intros Hsize Hf.
  destruct (send_loop_spec (S (length (content f))) (content f) (file_reads env)
              (socket_writes env) Hsize ltac:(lia)) as [Hprefix Hall].
  pose proof (send_loop_full (S (length (content f))) (content f)
                (file_reads env) (socket_writes env)) as Hfull.
  unfold send_file. rewrite Hf.
  set (loop := send_loop (S (length (content f))) (content f) (file_reads env)
                 (socket_writes env)) in *.
  clearbody loop. destruct loop as [tcp ending].
  simpl in Hprefix, Hall, Hfull.
  destruct (tcp_port env) as [port|];
    [ | simpl; split; [apply prefix_nil | split; [discriminate | congruence]]].
  destruct (select_ready env);
    [ | simpl; split; [apply prefix_nil | split; discriminate]].
  destruct (accept_ok env); simpl;
    [ | split; [apply prefix_nil | split; discriminate]].
  destruct (open_ok env); simpl;
    [ | split; [apply prefix_nil | split; discriminate]].
  destruct ending as [|what|signal]; simpl.
  - destruct (close_ok env); simpl.
    + split; [exact Hprefix | ]. split; [now intros _ _ _; apply Hall | ].
      intros _ _ _ _ _ _ _. split; [reflexivity | ].
      split; [reflexivity | now apply Hall].
    + split; [exact Hprefix | ]. split; discriminate.
  - split; [exact Hprefix | ]. split; [discriminate | ].
    intros _ _ _ _ _ Hr Hw. now specialize (Hfull Hr Hw).
  - split; [exact Hprefix | ]. split; [discriminate | ].
    intros _ _ _ _ _ Hr Hw. now specialize (Hfull Hr Hw).
Qed.

(** X11.  What the child of a fetch sends over TCP, for a file that is on
    disk and a buffer of at least one byte.  However it ends (an exception,
    a failing read of the file among them, SIGPIPE on a connection the
    client closed, or [exit(0)]), it has sent the file from its first byte
    on, in order, with nothing added.  It has sent all of the file whenever
    a client connected and the child reached [exit(0)]: no exception and no
    signal.  And it does reach [exit(0)] when the calls to the system work,
    every read of the file works and every write to the client takes all it
    is given. *)
Theorem send_file_sends_the_file options st fs client request path env f :
  0 < BSIZE ->
  disk fs !! path = Some f ->
  x_tcp (send_file options st fs client request path env) `prefix_of` content f
  /\ (select_ready env = true ->
      x_thrown (send_file options st fs client request path env) = None ->
      x_signal (send_file options st fs client request path env) = None ->
      x_tcp (send_file options st fs client request path env) = content f)
  /\ (tcp_port env <> None -> select_ready env = true ->
      accept_ok env = true -> open_ok env = true -> close_ok env = true ->
      (forall r, r ∈ file_reads env -> r = file_read_ok) ->
      (forall w, w ∈ socket_writes env -> w = socket_write_returns write_all) ->
      x_thrown (send_file options st fs client request path env) = None
      /\ x_signal (send_file options st fs client request path env) = None
      /\ x_tcp (send_file options st fs client request path env) = content f).
Proof. intros Hsize Hf. now apply send_file_result. Qed.

(** The writes of a receiving loop that ends with nothing left to receive
    and no error put in the file the first bytes of the stream, as many as
    were to come. *)
Lemma receive_loop_content reads : forall ws cur remaining err,
  0 <= remaining ->
  let '(calls, remaining', len', err') :=
    receive_loop reads ws cur remaining err in
  err' = false -> remaining' = 0 ->
  concat (written <$> calls)
  = take (Z.to_nat remaining) (concat (buffer_of <$> cur :: reads)).
Proof.
  assert (Hpiece : forall (chunk rest : list byte) remaining,
            0 <= remaining ->
            take (Z.to_nat (Z.min (Z.of_nat (length chunk)) remaining)) chunk
              ++ take (Z.to_nat (remaining
                         - Z.min (Z.of_nat (length chunk)) remaining)) rest
            = take (Z.to_nat remaining) (chunk ++ rest)).
  { intros chunk rest remaining Hrem. rewrite take_app.
    destruct (Z.le_gt_cases (Z.of_nat (length chunk)) remaining).
    - rewrite Z.min_l by lia.
      rewrite (take_ge chunk (Z.to_nat (Z.of_nat (length chunk)))) by lia.
      rewrite (take_ge chunk (Z.to_nat remaining)) by lia.
      do 2 f_equal. lia.
    - rewrite Z.min_r by lia. f_equal.
      replace (Z.to_nat (remaining - remaining)) with O by lia.
      replace (Z.to_nat remaining - length chunk)%nat with O by lia.
      reflexivity. }
  induction reads as [|next reads IH]; intros ws cur remaining err Hrem.
  - simpl.
    destruct ((0 <? remaining) && (0 <? read_len_of cur) && negb err) eqn:Hcond.
    + apply andb_true_iff in Hcond as [[Hpos Hlen]%andb_true_iff Herr].
      apply Z.ltb_lt in Hpos, Hlen. apply negb_true_iff in Herr as ->.
      destruct (Z.eqb_spec
                  (write_len_of (hd write_all ws) (Z.min (read_len_of cur) remaining))
                  (Z.min (read_len_of cur) remaining)) as [Heq|_]; [ | discriminate].
      intros _ Hdone. rewrite Heq in *.
      destruct cur as [chunk|]; simpl in *; [ | lia].
      rewrite <- (Hpiece chunk [] remaining Hrem). now rewrite take_nil.
    + intros _ ->. reflexivity.
  - simpl.
    destruct ((0 <? remaining) && (0 <? read_len_of cur) && negb err) eqn:Hcond.
    + apply andb_true_iff in Hcond as [[Hpos Hlen]%andb_true_iff Herr].
      apply Z.ltb_lt in Hpos, Hlen. apply negb_true_iff in Herr as ->.
      destruct (Z.eqb_spec
                  (write_len_of (hd write_all ws) (Z.min (read_len_of cur) remaining))
                  (Z.min (read_len_of cur) remaining)) as [Heq|_].
      * rewrite Heq.
        specialize (IH (tl ws) next
                      (remaining - Z.min (read_len_of cur) remaining) false
                      ltac:(lia)).
        destruct (receive_loop reads (tl ws) next
                    (remaining - Z.min (read_len_of cur) remaining) false)
          as [[[more remaining'] len'] err'].
        intros Herr' Hdone. specialize (IH Herr' Hdone).
        destruct cur as [chunk|]; simpl in *; [ | lia].
        rewrite <- Hpiece by exact Hrem. f_equal. exact IH.
      * rewrite receive_loop_after_error. discriminate.
    + intros _ ->. reflexivity.
Qed.

(** How a receiving child that ends well went through its code. *)
Lemma receive_file_success options st client request env port :
  tcp_port env = Some port -> select_ready env = true ->
  x_thrown (receive_file options st client request env) = None ->
  x_error (receive_file options st client request env) = false ->
  exists calls len,
    receive_loop (tl (reads env)) (writes env)
      (match reads env with r :: _ => r | [] => read_bytes [] end)
      (to_ssize (param request)) false
    = (calls, 0, len, false)
    /\ x_writes (receive_file options st client request env) = calls
    /\ x_ops (receive_file options st client request env)
       = op_open (SHRD_FLDR options +:+ "/" +:+ cmplx_data request)
           :: (op_write <$> (written <$> calls)).
Proof.
  intros Hport Hselect. unfold receive_file. rewrite Hport, Hselect.
  destruct (accept_ok env); simpl; [ | discriminate].
  destruct (open_ok env); simpl; [ | discriminate].
  destruct (receive_loop _ _ _ _ _) as [[[calls remaining] len] err].
  destruct (close_ok env); simpl; [ | discriminate].
  intros _ Herror.
  destruct (len <? 0); simpl in Herror; [discriminate | ].
  destruct (Z.eqb_spec remaining 0) as [->|_]; simpl in Herror; [ | discriminate].
  subst err. exists calls, len. split; [reflexivity | ]. split; [reflexivity | ].
  simpl. rewrite app_nil_r. now rewrite list_fmap_compose.
Qed.

End transfer_facts.

Section received_facts.
Context `{connection_h}.

(** What an upload child that ends well has put on disk. *)
Lemma receive_file_result options st client request env fs port :
  u64 (param request) ->
  tcp_port env = Some port -> select_ready env = true ->
  x_thrown (receive_file options st client request env) = None ->
  x_error (receive_file options st client request env) = false ->
  concat (written <$> x_writes (receive_file options st client request env))
  = take (Z.to_nat (param request)) (stream_of env)
  /\ param request <= Z.of_nat (length (stream_of env))
  /\ (exists i,
        disk (after_child (receive_file options st client request env) fs)
          !! (SHRD_FLDR options +:+ "/" +:+ cmplx_data request)
        = Some {| ino := i;
                  content :=
                    take (Z.to_nat (param request)) (stream_of env)
                      ++ drop (Z.to_nat (param request))
                           (match disk fs !! (SHRD_FLDR options +:+ "/"
                                              +:+ cmplx_data request) with
                            | Some f => content f
                            | None => []
                            end) |})
  /\ forall q, q <> SHRD_FLDR options +:+ "/" +:+ cmplx_data request ->
       disk (after_child (receive_file options st client request env) fs) !! q
       = disk fs !! q.
Proof.
  intros Hparam Hport Hselect Hthrown Herror.
  destruct (receive_file_success options st client request env port
              Hport Hselect Hthrown Herror) as (calls & len & Hloop & Hwrites & Hops).
  set (file := SHRD_FLDR options +:+ "/" +:+ cmplx_data request) in *.
  pose proof (receive_loop_spec (tl (reads env)) (writes env)
                (match reads env with r :: _ => r | [] => read_bytes [] end)
                (to_ssize (param request)) false) as Hspec.
  rewrite Hloop in Hspec. destruct Hspec as [_ Hspec].
  destruct (Hspec eq_refl) as (_ & Hzero & _).
  assert (Hssize : to_ssize (param request) = param request).
  { apply to_ssize_nonneg; [exact Hparam | ].
    pose proof (bytes_written_nonneg (op_write ∘ written <$> calls)). lia. }
  pose proof (receive_loop_content (tl (reads env)) (writes env)
                (match reads env with r :: _ => r | [] => read_bytes [] end)
                (to_ssize (param request)) false) as Hcontent.
  rewrite Hloop, Hssize in Hcontent.
  specialize (Hcontent ltac:(unfold u64 in Hparam; lia) eq_refl eq_refl).
  assert (Hstream : concat (buffer_of <$>
                      (match reads env with r :: _ => r | [] => read_bytes [] end)
                        :: tl (reads env)) = stream_of env).
  { unfold stream_of. destruct (reads env); reflexivity. }
  rewrite Hstream in Hcontent.
  assert (Hlen : Z.of_nat (length (concat (written <$> calls))) = param request).
  { rewrite Hssize in Hzero.
    assert (Hsame : bytes_written (op_write ∘ written <$> calls)
                    = Z.of_nat (length (concat (written <$> calls)))).
    { clear. induction calls as [|c calls IH]; [reflexivity | ].
      rewrite bytes_written_call, IH, fmap_cons. simpl concat.
      rewrite length_app. lia. }
    lia. }
  rewrite Hwrites. split; [exact Hcontent | ]. split.
  { rewrite Hcontent, length_take in Hlen. lia. }
  unfold after_child. rewrite Hops. simpl run_ops. unfold open_create.
  assert (Hn : length (concat (written <$> calls)) = Z.to_nat (param request))
    by lia.
  destruct (disk fs !! file) as [[i c]|] eqn:Hfile.
  - simpl ino.
    destruct (run_writes file i (written <$> calls) O fs c Hfile ltac:(lia))
      as [Hf Hothers].
    split; [ | exact Hothers].
    exists i. rewrite Hf. simpl. now rewrite Hn, Hcontent.
  - destruct (run_writes file (next_ino fs) (written <$> calls) O
                {| disk := <[file := {| ino := next_ino fs; content := [] |}]> (disk fs);
                   next_ino := S (next_ino fs) |} [])
      as [Hf Hothers].
    { simpl. apply lookup_insert_eq. }
    { simpl. lia. }
    split.
    + exists (next_ino fs). rewrite Hf. simpl.
      now rewrite !drop_nil, Hcontent.
    + intros q Hq. rewrite (Hothers q Hq). simpl. now apply lookup_insert_ne.
Qed.

(** X12.  An upload child that a client connected to and that ended
    without an error or an exception: its writes, put end to end, are the
    first [param] bytes of what the client sent, and the client sent that
    many; run undisturbed, it leaves under the name of the upload those
    bytes, followed, if a longer file of that name was there already, by
    what that file held beyond them (the file is opened without
    truncation); no other file is touched. *)
Theorem receive_file_stores_stream options st client request env fs port :
  u64 (param request) ->
  tcp_port env = Some port -> select_ready env = true ->
  x_thrown (receive_file options st client request env) = None ->
  x_error (receive_file options st client request env) = false ->
  concat (written <$> x_writes (receive_file options st client request env))
  = take (Z.to_nat (param request)) (stream_of env)
  /\ param request <= Z.of_nat (length (stream_of env))
  /\ (exists i,
        disk (after_child (receive_file options st client request env) fs)
          !! (SHRD_FLDR options +:+ "/" +:+ cmplx_data request)
        = Some {| ino := i;
                  content :=
                    take (Z.to_nat (param request)) (stream_of env)
                      ++ drop (Z.to_nat (param request))
                           (match disk fs !! (SHRD_FLDR options +:+ "/"
                                              +:+ cmplx_data request) with
                            | Some f => content f
                            | None => []
                            end) |})
  /\ forall q, q <> SHRD_FLDR options +:+ "/" +:+ cmplx_data request ->
       disk (after_child (receive_file options st client request env) fs) !! q
       = disk fs !! q.
Proof. apply receive_file_result. Qed.



End received_facts.

Lemma send_file_sends_the_file_example :
  x_tcp (send_file (H := sample_connection) sample_options two_files_state
           two_files_fs sample_client get_a "shared/a" patient_client)
  = replicate 30 x00.
Proof.
  destruct (send_file_sends_the_file (H := sample_connection) sample_options
              two_files_state two_files_fs sample_client get_a "shared/a"
              patient_client (zeros 0 30) ltac:(simpl; lia)
              ltac:(vm_compute; reflexivity)) as (_ & Hwhole & _).
  apply Hwhole; reflexivity.
Defined.

Lemma receive_file_stores_stream_example :
  concat (written <$> x_writes (receive_file sample_options two_files_state
                                  sample_client add_five hello_client))
  = [x68; x65; x6c; x6c; x6f].
Proof.
  destruct (receive_file_stores_stream sample_options
              two_files_state sample_client add_five
              hello_client two_files_fs 50002
              ltac:(vm_compute; split; [discriminate | reflexivity])
              ltac:(reflexivity) ltac:(reflexivity)
              ltac:(vm_compute; reflexivity) ltac:(vm_compute; reflexivity))
    as (Hbytes & _).
  exact Hbytes.
Defined.


(** X21.  A declared size of 2^63 bytes or more is negative once it is put
    in the signed [remaining_file_size]: when a client connects, the loop
    is not entered, nothing is written, the transfer is flagged failed
    whatever the client sends, and the file just created is unlinked. *)
Theorem huge_upload_always_fails options st client request env fs port :
  u64 (param request) -> 2 ^ 63 <= param request ->
  tcp_port env = Some port -> select_ready env = true ->
  accept_ok env = true -> open_ok env = true ->
  x_writes (receive_file options st client request env) = []
  /\ x_error (receive_file options st client request env) = true
  /\ (close_ok env = true ->
      x_ops (receive_file options st client request env)
      = [op_open (SHRD_FLDR options +:+ "/" +:+ cmplx_data request);
         op_unlink (SHRD_FLDR options +:+ "/" +:+ cmplx_data request)]
      /\ disk (after_child (receive_file options st client request env) fs)
           !! (SHRD_FLDR options +:+ "/" +:+ cmplx_data request) = None).
Proof.
  intros Hparam Hhuge Hport Hselect Haccept Hopen.
  assert (Hneg : to_ssize (param request) < 0).
  { unfold to_ssize. rewrite (wrap64_small _ Hparam).
    destruct (Z.ltb_spec (param request) (2 ^ 63)); unfold u64 in Hparam; lia. }
  assert (Hloop : forall reads ws cur,
            receive_loop reads ws cur (to_ssize (param request)) false
            = ([], to_ssize (param request), read_len_of cur, false)).
  { intros reads ws cur.
    destruct reads; simpl;
      destruct (Z.ltb_spec 0 (to_ssize (param request))); try lia; reflexivity. }
  unfold receive_file, after_child.
  rewrite Hport, Hselect, Haccept, Hopen, Hloop. simpl.
  assert (Hflag : (read_len_of
                     match reads env with r :: _ => r | [] => read_bytes [] end <? 0)
                  || negb (to_ssize (param request) =? 0) = true).
  { destruct (Z.eqb_spec (to_ssize (param request)) 0); [lia | ].
    apply orb_true_r. }
  rewrite Hflag.
  destruct (close_ok env); simpl.
  - split; [reflexivity | ]. split; [reflexivity | ]. intros _.
    split; [reflexivity | ].
    destruct (open_create _ fs) as [fs' i]. simpl. apply lookup_delete_eq.
  - split; [reflexivity | ]. split; [reflexivity | discriminate].
Qed.

Lemma huge_upload_always_fails_example :
  x_writes (receive_file sample_options two_files_state sample_client add_huge
              hello_client) = []
  /\ x_error (receive_file sample_options two_files_state sample_client add_huge
                hello_client) = true.
Proof.
  destruct (huge_upload_always_fails sample_options two_files_state
              sample_client add_huge hello_client two_files_fs 50002
              ltac:(vm_compute; split; [discriminate | reflexivity])
              ltac:(simpl; lia) ltac:(reflexivity) ltac:(reflexivity)
              ltac:(reflexivity) ltac:(reflexivity))
    as (Hwrites & Herror & _).
  split; [exact Hwrites | exact Herror].
Defined.

(** * Further properties: what holds all along a run *)

Lemma index_entries_files entries : forall st,
  files (foldl index_entry st entries) = files st ++ regular_paths entries
  /\ open_files (foldl index_entry st entries) = open_files st.
Proof.
  induction entries as [|e entries IH]; intros st; simpl.
  - now rewrite app_nil_r.
  - destruct (IH (index_entry st e)) as [-> ->]. unfold index_entry.
    destruct (e_regular e); [ | now split].
    destruct (_ <? _); simpl; now rewrite <- app_assoc.
Qed.

Lemma regular_paths_folder folder :
  regular_paths (folder_listing folder) = folder.*1.
Proof.
  induction folder as [|[path bytes] folder IH]; simpl; [reflexivity | ].
  now rewrite IH.
Qed.

Lemma refund_debt size st :
  0 <= size -> u64 (negative_space st) ->
  negative_space (refund size st) <= negative_space st.
Proof.
  intros Hsize Hneg. unfold refund.
  destruct (Z.ltb_spec 0 (negative_space st)); [ | simpl; lia].
  destruct (Z.ltb_spec size (negative_space st)); simpl; [ | lia].
  rewrite wrap64_small by (unfold u64 in *; lia). lia.
Qed.

Section run_facts.
Context `{connection_h} (options : server_options).

(** A property of the state of the serving process that holds at startup
    and that every turn of the loop keeps, holds all along the run. *)
Lemma reachable_state (P : server_state -> Prop) folder :
  P (w_state (startup options folder)) ->
  (forall w client buffer rcv_len fork_ok,
     reachable options folder w -> P (w_state w) ->
     P (r_state (read_requests options (w_state w) (w_fs w) client buffer
                   rcv_len fork_ok))) ->
  forall w, reachable options folder w -> P (w_state w).
Proof.
  intros Hstart Hturn w Hrun. unfold reachable in Hrun. revert w Hrun.
  apply (rtc_ind_r (fun w => P (w_state w))); [exact Hstart | ].
  intros w1 w2 Hrun Hstep Hw.
  destruct Hstep as [w1 client buffer rcv_len fork_ok env | w1 i t op rest Hi Hops].
  - simpl. now apply Hturn.
  - unfold after_op. destruct (exec_op _ _ _ _) as [[fd off] fs]. exact Hw.
Qed.

Lemma startup_files folder :
  files (w_state (startup options folder)) = folder.*1
  /\ open_files (w_state (startup options folder)) = ∅.
Proof.
  simpl.
  destruct (index_entries_files (folder_listing folder)
              (set_available_space (wrap64 (MAX_SPACE options))
                 current_server_state)) as [-> ->].
  now rewrite regular_paths_folder.
Qed.


(** X15.  The serving process never has a file marked open: only the
    children mark the file they receive.  So when [clean_up] runs in the
    serving process it unlinks nothing, whether it throws or not. *)
Theorem serving_process_holds_no_file folder w :
  reachable options folder w ->
  open_files (w_state w) = ∅
  /\ forall drop_ok,
       c_fs (clean_up (w_state w) (w_fs w) true drop_ok) = w_fs w
       /\ forall path,
            call_unlink path
              ∉ c_calls (clean_up (w_state w) (w_fs w) true drop_ok).
Proof.
  intros Hrun.
  assert (Hopen : open_files (w_state w) = ∅).
  { revert w Hrun. apply (reachable_state (fun st => open_files st = ∅)).
    - apply startup_files.
    - intros w1 client buffer rcv_len fork_ok _ Hnone.
      destruct (read_requests_keeps_frame options (w_state w1) (w_fs w1) client
                  buffer rcv_len fork_ok) as (_ & _ & -> & _).
      exact Hnone. }
  split; [exact Hopen | ].
  intros drop_ok. unfold clean_up. rewrite Hopen, elements_empty.
  destruct drop_ok; simpl.
  - split; [reflexivity | ]. intros path Hin.
    repeat (apply elem_of_cons in Hin as [Hin | Hin]; [discriminate Hin | ]).
    inversion Hin.
  - split; [reflexivity | ]. intros path Hin.
    repeat (apply elem_of_cons in Hin as [Hin | Hin]; [discriminate Hin | ]).
    inversion Hin.
Qed.

(** The debt never grows once the loop has started. *)
Lemma reachable_debt folder w :
  folder_size folder < 2 ^ 64 ->
  reachable options folder w ->
  negative_space (w_state w) <= negative_space (w_state (startup options folder)).
Proof.
  intros Hsize.
  apply (reachable_state
           (fun st => negative_space st
                      <= negative_space (w_state (startup options folder))));
    [lia | ].
  intros w1 client buffer rcv_len fork_ok Hrun Hdebt.
  pose proof (ok_negative _ _ (reachable_world_ok options folder w1 Hsize Hrun))
    as Hneg.
  etransitivity; [ | exact Hdebt].
  apply read_requests_cases.
  - intros sent child thrown. simpl. lia.
  - intros request. unfold remove.
    destruct (check_data_not_empty request client) as [[|] sent]; [ | simpl; lia].
    destruct (find_file _ _) as [[it path]|]; [ | simpl; lia].
    unfold file_size. destruct (disk _ !! path) as [f|]; [ | simpl; lia].
    simpl. apply refund_debt; [ | exact Hneg]. apply wrap64_u64.
  - intros request. unfold upload.
    destruct (_ || _); [simpl; lia | ]. destruct fork_ok; simpl; lia.
Qed.

(** The debt at startup is what the folder holds beyond the quota. *)
Lemma startup_debt folder :
  u64 (MAX_SPACE options) -> folder_size folder < 2 ^ 64 ->
  negative_space (w_state (startup options folder))
  = Z.max 0 (folder_size folder - MAX_SPACE options).
Proof.
  intros Hquota Hsize.
  destruct (index_folder (wrap64 (MAX_SPACE options)) folder
              (set_available_space (wrap64 (MAX_SPACE options)) current_server_state)
              0 (wrap64_u64 _) (wrap64_u64 _) u64_0
              ltac:(simpl; lia) ltac:(simpl; lia) ltac:(lia) ltac:(lia))
    as (Hav & Hneg & Hexcl & Htotal).
  change (w_state (startup options folder))
    with (foldl index_entry
            (set_available_space (wrap64 (MAX_SPACE options)) current_server_state)
            (folder_listing folder)).
  set (st0 := foldl index_entry _ _) in *. clearbody st0.
  rewrite (wrap64_small _ Hquota) in Htotal.
  destruct (Z.lt_ge_cases 0 (negative_space st0)) as [Hpos|Hzero].
  - rewrite (Hexcl Hpos) in Htotal. lia.
  - unfold u64 in *. lia.
Qed.

(** X16.  Storage is bounded all along the run: the debt is never more
    than what the folder held beyond the quota at startup, and the free
    space, the bytes on disk and the bytes the children have still to
    write never add up to more than the larger of the quota and the size
    of the folder at startup.  (Only the server and its children touch the
    folder; the sizes at startup add up within 64 bits.) *)
Theorem storage_bounded folder w :
  u64 (MAX_SPACE options) ->
  folder_size folder < 2 ^ 64 ->
  reachable options folder w ->
  negative_space (w_state w) <= Z.max 0 (folder_size folder - MAX_SPACE options)
  /\ available_space (w_state w) + disk_size (disk (w_fs w))
       + pending_bytes (w_tasks w)
     <= Z.max (MAX_SPACE options) (folder_size folder).
Proof.
  intros Hquota Hsize Hrun.
  pose proof (reachable_debt folder w Hsize Hrun) as Hdebt.
  rewrite (startup_debt folder Hquota Hsize) in Hdebt.
  pose proof (ok_total _ _ (reachable_world_ok options folder w Hsize Hrun))
    as Htotal.
  rewrite (wrap64_small _ Hquota) in Htotal.
  split; [exact Hdebt | lia].
Qed.



End run_facts.

Ltac three_steps :=
  unfold reachable;
  apply (rtc_l _ _ run_1); [apply step_request | ];
  apply (rtc_l _ _ run_2); [apply step_request | ];
  apply rtc_once;
  apply (step_child sample_options run_2 O five_child);
    [vm_compute; reflexivity | reflexivity].


Lemma storage_bounded_run :
  negative_space (w_state run_3) <= Z.max 0 (40 - 100)
  /\ available_space (w_state run_3) + disk_size (disk (w_fs run_3))
       + pending_bytes (w_tasks run_3)
     <= Z.max 100 40.
Proof.
  apply (storage_bounded (H := sample_connection) sample_options
           two_files_folder run_3).
  - vm_compute. split; [discriminate | reflexivity].
  - vm_compute. reflexivity.
  - three_steps.
Defined.



Lemma serving_process_holds_no_file_run :
  open_files (w_state run_3) = ∅
  /\ c_fs (clean_up (w_state run_3) (w_fs run_3) true true) = w_fs run_3.
Proof.
  destruct (serving_process_holds_no_file (H := sample_connection)
              sample_options two_files_folder run_3) as [Hopen Hclean].
  - three_steps.
  - split; [exact Hopen | apply Hclean].
Defined.

(** * Further properties: starting and stopping *)

Lemma foldl_unlink l : forall fs path,
  disk (foldl (fun fs p => unlink p fs) fs l) !! path
  = if decide (path ∈ l) then None else disk fs !! path.
Proof.
  induction l as [|p l IH]; intros fs path; simpl.
  - destruct (decide (path ∈ [])) as [Hin|_]; [inversion Hin | reflexivity].
  - rewrite IH. unfold unlink. simpl.
    destruct (decide (path ∈ l)) as [Hin|Hout].
    + destruct (decide (path ∈ p :: l)) as [_|Hno]; [reflexivity | ].
      exfalso. apply Hno. now right.
    + destruct (decide (path = p)) as [->|Hne].
      * destruct (decide (p ∈ p :: l)) as [_|Hno]; [apply lookup_delete_eq | ].
        exfalso. apply Hno. left.
      * destruct (decide (path ∈ p :: l)) as [[?|?]%elem_of_cons|_];
          [contradiction | contradiction | ].
        now apply lookup_delete_ne.
Qed.

(** X18.  [clean_up]: in a child it never throws.  When it does not throw,
    the files marked open, and only they, are gone from the folder.  When
    it throws (the serving process could not leave the multicast group),
    it has neither closed the socket nor unlinked anything. *)
Theorem clean_up_unlinks_open_files st fs is_parent drop_ok :
  (is_parent = false -> c_thrown (clean_up st fs is_parent drop_ok) = None)
  /\ (c_thrown (clean_up st fs is_parent drop_ok) = None ->
      forall path,
        disk (c_fs (clean_up st fs is_parent drop_ok)) !! path
        = if decide (path ∈ open_files st) then None else disk fs !! path)
  /\ (c_thrown (clean_up st fs is_parent drop_ok) <> None ->
      c_fs (clean_up st fs is_parent drop_ok) = fs
      /\ (call_close (socket st) ∉ c_calls (clean_up st fs is_parent drop_ok))
      /\ forall path,
           call_unlink path ∉ c_calls (clean_up st fs is_parent drop_ok)).
Proof.
  unfold clean_up. split; [intros ->; reflexivity | ].
  destruct (is_parent && negb drop_ok); simpl.
  - split; [discriminate | ]. intros _. split; [reflexivity | ].
    split; [ | intros path];
      intros Hin;
      repeat (apply elem_of_cons in Hin as [Hin | Hin]; [discriminate Hin | ]);
      inversion Hin.
  - split; [ | congruence]. intros _ path. rewrite foldl_unlink.
    destruct (decide (path ∈ elements (open_files st))) as [Hin|Hout];
      destruct (decide (path ∈ open_files st)) as [Hin'|Hout'];
      try reflexivity; exfalso.
    + apply Hout'. now apply elem_of_elements.
    + apply Hout. now apply elem_of_elements.
Qed.

(** X19.  [read_options] returns options exactly when the three mandatory
    options were given, the timeout is neither zero nor more than 300, and
    the port is not negative; the options returned hold the values given,
    and 52428800 bytes and 5 seconds where no quota and no timeout were
    given.  An option that is missing is reported before a bad timeout,
    and a bad timeout before a bad port. *)
Theorem read_options_accepts variables :
  ((exists options, read_options variables = inr options)
   <-> is_Some (vm_mcast_addr variables) /\ is_Some (vm_cmd_port variables)
       /\ is_Some (vm_shrd_fldr variables)
       /\ default 5 (vm_timeout variables) <> 0
       /\ default 5 (vm_timeout variables) <= 300
       /\ 0 <= default 0 (vm_cmd_port variables))
  /\ (forall options, read_options variables = inr options ->
        vm_mcast_addr variables = Some (MCAST_ADDR options)
        /\ vm_cmd_port variables = Some (CMD_PORT options)
        /\ vm_shrd_fldr variables = Some (SHRD_FLDR options)
        /\ MAX_SPACE options = default 52428800 (vm_max_space variables)
        /\ TIMEOUT options = default 5 (vm_timeout variables))
  /\ (read_options variables = inl "timeout"%string
      \/ read_options variables = inl "port"%string ->
      is_Some (vm_mcast_addr variables) /\ is_Some (vm_cmd_port variables)
      /\ is_Some (vm_shrd_fldr variables))
  /\ (read_options variables = inl "port"%string ->
      default 5 (vm_timeout variables) <> 0
      /\ default 5 (vm_timeout variables) <= 300).
Proof.
  unfold read_options, mandatory_variables, variables_count,
    TIMEOUT_DEFAULT, TIMEOUT_MAX, MAX_SPACE_DEFAULT.
  destruct variables as [[addr|] [port|] space [fldr|] timeout]; simpl;
    try (split; [split; [intros [? [=]] | intros (? & ? & ? & _)]
                | split; [intros ? [=] | split; [intros [[=]|[=]] | intros [=]]]];
         match goal with
         | Hnone : is_Some None |- _ => now destruct Hnone
         end).
  destruct (Z.ltb_spec 300 (default 5 timeout)); simpl.
  { split; [split; [intros [? [=]] | lia] | ].
    split; [intros ? [=] | ]. split; [now auto | intros [=]]. }
  destruct (Z.eqb_spec (default 5 timeout) 0); simpl.
  { split; [split; [intros [? [=]] | lia] | ].
    split; [intros ? [=] | ]. split; [now auto | intros [=]]. }
  destruct (Z.ltb_spec port 0); simpl.
  { split; [split; [intros [? [=]] | lia] | ].
    split; [intros ? [=] | ]. split; [now auto | intros _; lia]. }
  split; [split; [intros _ | intros _; eauto] | ].
  { repeat split; eauto; lia. }
  split; [intros ? [= <-]; simpl; auto | ].
  split; [now auto | intros [=]].
Qed.
